(** * Corpus analyzer (problem3/analyzer/analyze.py): model and properties

    The analyzer reads the processed documents, tokenizes their text and
    builds one report: word counts, top words, n-grams, pairwise Jaccard
    similarity and a readability summary.  This file embeds the analyzer
    as Rocq functions and proves the properties its specification states.

    Modelling conventions.
    - A Python [str] is a list of Unicode code points ([list N]).
    - A Python [float] is an IEEE 754 double, represented by the rational
      it stands for ([Q]).  [float64 q] is the double nearest to [q], ties
      to the even significand, subnormals included; every float operation
      of the analyzer is the exact operation followed by [float64].
      [round(x, n)] is the double nearest to the decimal of [n] places
      nearest to the exact value of the double [x], ties to even.  The
      quotient of two ints, whose float is the double nearest to it, is
      kept exact where it goes straight into [round], which starts from
      the double nearest to its argument.  No value of the analyzer comes
      near [2^1024], so overflow is left out.
    - What the interpreter decides is a parameter ([chartab]): which code
      points are alphanumeric ([str.isalnum], the part of the regex class
      [\w] besides the underscore), which are white space ([str.isspace],
      used by [str.strip]), how a string is lower-cased ([str.lower]), and
      how the builtin [sum] adds a list of floats (left to right before
      CPython 3.12, with a compensation term since).  Every theorem holds
      for every such interpreter; the examples use [ascii_tab], the ASCII
      tables with the left-to-right sum.
    - A Python [set] is a [gset], the dict [doc_word_sets] a [gmap]; a
      [Counter] is an association list in insertion order, because
      [most_common] breaks ties by that order.
    - An exception that [main] does not catch ends the run: [main] returns
      the events it performed and either [Ok] or the error. *)

From Stdlib Require Import QArith Qround Qabs Qpower Lqa.
From stdpp Require Import gmap strings list sorting.

Close Scope Q_scope.
#[local] Set Warnings "-clear-no-such-hyp".

(** ** Floats *)

Definition of_int (n : nat) : Q := inject_Z (Z.of_nat n).

Definition round_half_even (q : Q) : Z :=
  let f := Qfloor q in
  match (q - inject_Z f ?= 1 # 2)%Q with
  | Lt => f
  | Gt => (f + 1)%Z
  | Eq => if Z.even f then f else (f + 1)%Z
  end.

(** The binary exponent of a positive rational: [2^k <= q < 2^(k+1)]. *)
Definition Qlog2 (q : Q) : Z :=
  let k := (Z.log2 (Qnum q) - Z.log2 (Zpos (Qden q)))%Z in
  if Qle_bool (2 ^ k) q then k else (k - 1)%Z.

(** The double nearest to [q]: [q] is rounded to a multiple of its unit in
    the last place, [2^(k-52)] for [2^k <= |q| < 2^(k+1)] and [2^-1074]
    in the subnormal range, ties to the even multiple. *)
Definition float64 (q : Q) : Q :=
  let q := Qred q in
  if Qeq_bool q 0 then 0%Q
  else
    let e := Z.max (Qlog2 (Qabs q) - 52) (-1074) in
    (inject_Z (round_half_even (q / 2 ^ e)) * 2 ^ e)%Q.

(** [round(x, ndigits)] for the float [x] nearest to [q]: the exact value
    of [x] is rounded to [ndigits] decimal places, ties to even, and the
    result is the double nearest to that decimal. *)
Definition py_round (q : Q) (ndigits : nat) : Q :=
  let x := float64 q in
  float64 (inject_Z (round_half_even (x * inject_Z (10 ^ Z.of_nat ndigits)))
           / inject_Z (10 ^ Z.of_nat ndigits)).

(** The builtin [sum] on floats as a left fold of float additions. *)
Definition naive_sum (nums : list Q) : Q :=
  foldl (λ s x, float64 (s + x)) 0%Q nums.

(** ** Strings and the interpreter's tables *)

Abbreviation text := (list N).

Record chartab := {
  isalnum : N → bool;
  isspace : N → bool;
  str_lower : list N → list N;
  (* the builtin [sum] on a list of floats *)
  float_sum : list Q → Q;
  float_sum_nonneg :
    ∀ nums, Forall (λ x, (0 <= x)%Q) nums → (0 <= float_sum nums)%Q
}.

(** [avg], lines 26-27, on a list of ints: their sum is exact and the
    division of two ints gives the double nearest to the quotient. *)
Definition avg_int (nums : list nat) : Q :=
  match nums with
  | [] => 0%Q
  | _ => float64 (of_int (sum_list nums) / of_int (length nums))
  end.

(** [avg], lines 26-27, on a list of floats: the float sum is divided by
    the length as a float. *)
Definition avg (U : chartab) (nums : list Q) : Q :=
  match nums with
  | [] => 0%Q
  | _ => float64 (float_sum U nums / float64 (of_int (length nums)))
  end.

(** The left-to-right sum of floats that are not negative is not
    negative, as the record asks of a [sum]. *)
Lemma round_half_even_ge (q : Q) (k : Z) :
  (inject_Z k <= q)%Q → (k ≤ round_half_even q)%Z.
Proof.
  intros Hq. unfold round_half_even.
  assert (Hfk : (k ≤ Qfloor q)%Z).
  { rewrite <- (Qfloor_Z k). by apply Qfloor_resp_le. }
  destruct (q - inject_Z (Qfloor q) ?= 1 # 2)%Q; [|lia|lia].
  destruct (Z.even (Qfloor q)); lia.
Qed.

Lemma two_pow_pos (e : Z) : (0 < 2 ^ e)%Q.
Proof. by apply Qpower_0_lt. Qed.

Lemma float64_nonneg (q : Q) : (0 <= q)%Q → (0 <= float64 q)%Q.
Proof.
  intros H0. unfold float64.
  pose proof (Qred_correct q) as Hr. set (q' := Qred q) in *.
  destruct (Qeq_bool q' 0); [done|].
  set (e := Z.max _ _). pose proof (two_pow_pos e) as He.
  apply Qmult_le_0_compat; [|lra].
  change 0%Q with (inject_Z 0). rewrite <- Zle_Qle.
  apply round_half_even_ge. change (inject_Z 0) with 0%Q.
  apply Qle_shift_div_l; [done|]. lra.
Qed.

Lemma naive_sum_nonneg (nums : list Q) :
  Forall (λ x, (0 <= x)%Q) nums → (0 <= naive_sum nums)%Q.
Proof.
  unfold naive_sum. intros Hall.
  assert (Hacc : ∀ acc, (0 <= acc)%Q →
            (0 <= foldl (λ s x, float64 (s + x)) acc nums)%Q).
  { induction Hall as [|x nums Hx _ IH]; intros acc Hacc; [done|].
    simpl. apply IH, float64_nonneg. lra. }
  apply Hacc. lra.
Qed.

(** A string literal as a list of code points. *)
Definition py (s : string) : list N :=
  map Ascii.N_of_ascii (String.list_ascii_of_string s).

(** The ASCII restriction of the Unicode tables. *)
Definition ascii_isalnum (c : N) : bool :=
  ((48 <=? c) && (c <=? 57) || (65 <=? c) && (c <=? 90)
   || (97 <=? c) && (c <=? 122))%N.

Definition ascii_isspace (c : N) : bool :=
  ((9 <=? c) && (c <=? 13) || (28 <=? c) && (c <=? 32))%N.

Definition ascii_lower_char (c : N) : N :=
  if ((65 <=? c) && (c <=? 90))%N then (c + 32)%N else c.

Definition ascii_tab : chartab :=
  {| isalnum := ascii_isalnum;
     isspace := ascii_isspace;
     str_lower := map ascii_lower_char;
     float_sum := naive_sum;
     float_sum_nonneg := naive_sum_nonneg |}.

Definition HYPHEN : N := 45.
Definition UNDERSCORE : N := 95.
Definition SPACE : N := 32.

(** [s[i:j]] for [0 <= i <= j]. *)
Definition slice {A} (s : list A) (i j : nat) : list A :=
  take (j - i) (drop i s).

Module Tokenizer.
Section WithTable.
Variable U : chartab.

(** [\w] under [re.UNICODE]: alphanumeric or underscore. *)
Definition is_word (c : N) : bool := isalnum U c || (c =? UNDERSCORE)%N.

(** The character class [[\w-]]. *)
Definition in_class (c : N) : bool := is_word c || (c =? HYPHEN)%N.

Definition word_at (s : text) (i : nat) : bool :=
  match s !! i with Some c => is_word c | None => false end.

Definition word_before (s : text) (i : nat) : bool :=
  match i with O => false | S k => word_at s k end.

(** [\b] at position [i]: exactly one of the characters before and after
    the position is a word character; outside the string counts as not. *)
Definition boundary (s : text) (i : nat) : bool :=
  xorb (word_before s i) (word_at s i).

Definition class_at (s : text) (i : nat) : bool :=
  match s !! i with Some c => in_class c | None => false end.

(** The greedy [[\w-]+]: how many class characters start [l]. *)
Fixpoint run_length (l : text) : nat :=
  match l with
  | c :: l' => if in_class c then S (run_length l') else O
  | [] => O
  end.

(** The closing [\b], by backtracking: with [n] characters matched from
    [i], the longest match of at least one character that ends at a word
    boundary. *)
Fixpoint backtrack (s : text) (i n : nat) : option nat :=
  match n with
  | O => None
  | S k => if boundary s (i + n) then Some (i + n) else backtrack s i k
  end.

(** One attempt of the pattern [\b[\w-]+\b] at position [i]: the end of
    the match, if any. *)
Definition match_at (s : text) (i : nat) : option nat :=
  if boundary s i then backtrack s i (run_length (drop i s)) else None.

(** The scan of [re.findall]: after a match the search resumes at its
    end; after a failure one position further.  Every step advances, so
    [length s] steps reach the end of the string. *)
Fixpoint scan (fuel : nat) (s : text) (i : nat) : list (nat * nat) :=
  match fuel with
  | O => []
  | S f =>
      match match_at s i with
      | Some j => (i, j) :: scan f s j
      | None => scan f s (S i)
      end
  end.

Definition findall (s : text) : list (nat * nat) := scan (length s) s 0.

Definition tokenize (txt : text) : list text :=
  map (λ m, slice txt m.1 m.2) (findall txt).

(** The specification's token: a run of class characters between two
    word boundaries that no longer such run contains. *)
Definition span (s : text) (i j : nat) : Prop :=
  i < j ∧ j ≤ length s ∧ (∀ k, i ≤ k < j → class_at s k = true) ∧
  boundary s i = true ∧ boundary s j = true.

Definition maximal_span (s : text) (i j : nat) : Prop :=
  span s i j ∧
  ∀ i' j', i' ≤ i → j ≤ j' → span s i' j' → i' = i ∧ j' = j.

(** Matches are listed from left to right and do not overlap. *)
Definition left_to_right (l : list (nat * nat)) : Prop :=
  StronglySorted (λ a b, a.2 ≤ b.1) l.

(** The scan has passed [p]: no span starts before [p] and ends after. *)
Definition passed (s : text) (p : nat) : Prop :=
  ∀ q j, q < p → p < j → ¬ span s q j.

End WithTable.
End Tokenizer.

(** ** Counter and most_common *)

Module Counter.

Definition t := list (text * nat).

(** [c[k] += 1]: an existing key keeps its place, a new one goes last. *)
Fixpoint incr (k : text) (c : t) : t :=
  match c with
  | [] => [(k, 1)]
  | (k', n) :: c' =>
      if decide (k = k') then (k', S n) :: c' else (k', n) :: incr k c'
  end.

(** [Counter(iterable)], and the loop [for x in iterable: c[x] += 1]
    from the empty counter. *)
Definition of_list (l : list text) : t := foldl (λ c k, incr k c) [] l.

(** Stable insertion by descending count: [x], which stood before every
    element of [l], goes before the first element that does not have a
    greater count. *)
Fixpoint insert_desc (x : text * nat) (l : t) : t :=
  match l with
  | [] => [x]
  | y :: l' => if x.2 <? y.2 then y :: insert_desc x l' else x :: l
  end.

(** [sorted(c.items(), key=itemgetter(1), reverse=True)]; Python's sort
    is stable, also with [reverse=True]. *)
Definition sorted_desc (c : t) : t := foldr insert_desc [] c.

(** [c.most_common(n)] is [heapq.nlargest(n, c.items(), key=itemgetter(1))],
    which is documented as [sorted(..., reverse=True)[:n]]. *)
Definition most_common (n : nat) (c : t) : t := take n (sorted_desc c).

End Counter.

(** ** The helpers of analyze.py *)

(** Lines 17-21; the quotient of the two sizes is kept exact, line 82
    rounds the double nearest to it. *)
Definition jaccard_similarity (doc1_words doc2_words : list text) : Q :=
  let set1 : gset text := list_to_set doc1_words in
  let set2 : gset text := list_to_set doc2_words in
  let inter := set1 ∩ set2 in
  let union := set1 ∪ set2 in
  if bool_decide (union ≠ ∅)
  then (of_int (size inter) / of_int (size union))%Q
  else 0%Q.

(** [sep.join(parts)] *)
Definition join (sep : text) (parts : list text) : text :=
  match parts with
  | [] => []
  | p :: ps => p ++ flat_map (λ q, sep ++ q) ps
  end.

Definition ngrams (tokens : list text) (n : nat) : list text :=
  map (λ i, join [SPACE] (slice tokens i (i + n)))
      (seq 0 (Z.to_nat (Z.max 0 (Z.of_nat (length tokens) - Z.of_nat n + 1)))).

(** [itertools.combinations(l, 2)] *)
Fixpoint combinations2 {A} (l : list A) : list (A * A) :=
  match l with
  | [] => []
  | x :: xs => map (pair x) xs ++ combinations2 xs
  end.

(** [re.split(r"[.!?]+", text)]: the pieces between the runs of sentence
    marks, the empty pieces at both ends included. *)
Definition is_mark (c : N) : bool := ((c =? 46) || (c =? 33) || (c =? 63))%N.

Fixpoint split_marks (cur : text) (in_run : bool) (s : text) : list text :=
  match s with
  | [] => [reverse cur]
  | c :: s' =>
      if is_mark c
      then (if in_run then split_marks [] true s'
            else reverse cur :: split_marks [] true s')
      else split_marks (c :: cur) false s'
  end.

Definition re_split_marks (txt : text) : list text := split_marks [] false txt.

Section Sentences.
Variable U : chartab.

Fixpoint lstrip (s : text) : text :=
  match s with
  | c :: s' => if isspace U c then lstrip s' else s
  | [] => []
  end.

(** [s.strip()] *)
Definition strip (s : text) : text := reverse (lstrip (reverse (lstrip s))).

(** Lines 64-65: the trimmed pieces that are not blank. *)
Definition sentences (txt : text) : list text :=
  map strip (filter (λ s, strip s ≠ []) (re_split_marks txt)).

End Sentences.

(** ** The input, the report and the run *)

(** The value under the key "text" of a record: a string, or any other
    JSON value (number, null, list, object). *)
Inductive json_text := JString (s : text) | JNotString.

(** What [open] and [json.load] give for one file of the listing: an
    exception (unreadable file or invalid JSON), a JSON value that is not
    an object, or an object with or without the key "text". *)
Inductive record :=
  | Unreadable
  | NotObject
  | Object (text_field : option json_text).

Inductive error :=
  | LoadError          (* open or json.load raised *)
  | AttributeError     (* obj.get on a value that is not a dict *)
  | TypeError          (* re.findall on a value that is not a string *)
  | ReportWriteError
  | MarkerWriteError.

Inductive result (A : Type) :=
  | Ok (a : A)
  | Raise (e : error).
Arguments Ok {A} a.
Arguments Raise {A} e.

Record word_entry := { word : text; count : nat; frequency : Q }.
Record sim_entry := { doc1 : text; doc2 : text; similarity : Q }.
Record ngram_entry := { ngram : text; ngram_count : nat }.
Record readability_summary := {
  avg_sentence_length : Q;
  avg_word_length : Q;
  complexity_score : Q
}.

Module Report.
Record t := {
  processing_timestamp : text;
  documents_processed : nat;
  total_words : nat;
  unique_words : nat;
  top_100_words : list word_entry;
  document_similarity : list sim_entry;
  top_bigrams : list ngram_entry;
  top_trigrams : list ngram_entry;
  readability : readability_summary
}.
End Report.

(** The variables of [main] that the loop over the files updates. *)
Record vars := {
  docs : list (text * record);
  all_tokens : list text;
  doc_word_sets : gmap text (gset text);
  total_words : nat;
  doc_avg_sentence_len : list Q;
  doc_avg_word_len : list Q
}.

Definition vars0 : vars :=
  {| docs := []; all_tokens := []; doc_word_sets := ∅; total_words := 0;
     doc_avg_sentence_len := []; doc_avg_word_len := [] |}.

(** What the run observes of its environment: how many polls fail before
    process_complete.json exists, the sorted listing of the *.json files
    of the processed directory with what loading each gives, the clock
    readings that go into the two outputs, and whether each write
    succeeds.  The run is followed where the output directory could be
    made, the wait ends and the directory could be listed. *)
Record env := {
  polls : nat;
  listing : list (text * record);
  report_time : text;
  marker_time : text;
  report_write_ok : bool;
  marker_write_ok : bool
}.

Inductive event :=
  | Waited                          (* print, then sleep 2 s *)
  | ReportWritten (r : Report.t)    (* final_report.json written in full *)
  | MarkerWritten (timestamp : text)
  | PrintedComplete.

(** A run: the events performed so far, and a value or the exception
    that ended it. *)
Definition run (A : Type) : Type := list event * result A.

#[global] Instance run_bind : MBind run := λ A B k m,
  match m with
  | (evs, Ok a) => let (evs', r) := k a in (evs ++ evs', r)
  | (evs, Raise e) => (evs, Raise e)
  end.

Definition lift {A} (r : result A) : run A := ([], r).

Module Main.
Section WithTable.
Variable U : chartab.

Abbreviation tokenize := (Tokenizer.tokenize U).
Abbreviation lower := (str_lower U).

(** Lines 53-69, one iteration of the loop. *)
Definition ingest_one (v : vars) (f : text * record) : result vars :=
  match f.2 with
  | Unreadable => Raise LoadError
  | NotObject => Raise AttributeError
  | Object text_field =>
      match default (JString []) text_field with
      | JNotString => Raise TypeError
      | JString txt =>
          let tokens := tokenize txt in
          let sent_lens := map (λ s, length (tokenize s)) (sentences U txt) in
          Ok {| docs := docs v ++ [f];
                all_tokens := all_tokens v ++ tokens;
                doc_word_sets :=
                  <[f.1 := list_to_set (map lower tokens)]> (doc_word_sets v);
                total_words := total_words v + length tokens;
                doc_avg_sentence_len := doc_avg_sentence_len v ++ [avg_int sent_lens];
                doc_avg_word_len :=
                  doc_avg_word_len v ++ [avg_int (map length tokens)] |}
      end
  end.

(** Lines 52-69: the loop stops at the first exception. *)
Fixpoint ingest (v : vars) (files : list (text * record)) : result vars :=
  match files with
  | [] => Ok v
  | f :: rest =>
      match ingest_one v f with
      | Ok v' => ingest v' rest
      | Raise e => Raise e
      end
  end.

(** [doc_word_sets.get(fn, [])], as the iterable given to [set(...)]. *)
Definition get_words (sets : gmap text (gset text)) (fn : text) : list text :=
  match sets !! fn with
  | Some s => elements s
  | None => []
  end.

Definition ngram_entries (n : nat) (lower_all : list text) : list ngram_entry :=
  map (λ kv, {| ngram := kv.1; ngram_count := kv.2 |})
      (Counter.most_common 100 (Counter.of_list (ngrams lower_all n))).

(** Lines 71-113. *)
Definition build_report (now : text) (nfiles : nat) (v : vars) : Report.t :=
  let unique_words := size (list_to_set (map lower (all_tokens v)) : gset text) in
  let counter := Counter.of_list (map lower (all_tokens v)) in
  let top_100 := Counter.most_common 100 counter in
  let top_100_words :=
    map (λ wc,
           let freq := if bool_decide (total_words v ≠ 0)
                       then (of_int wc.2 / of_int (total_words v))%Q else 0%Q in
           {| word := wc.1; count := wc.2; frequency := py_round freq 6 |})
        top_100 in
  let similarity :=
    map (λ p,
           let sim := jaccard_similarity (get_words (doc_word_sets v) p.1.1)
                                         (get_words (doc_word_sets v) p.2.1) in
           {| doc1 := p.1.1; doc2 := p.2.1; similarity := py_round sim 6 |})
        (combinations2 (docs v)) in
  let lower_all := map lower (all_tokens v) in
  let avg_sentence_length := avg U (doc_avg_sentence_len v) in
  let avg_word_length := avg U (doc_avg_word_len v) in
  let complexity_score :=
    float64 (avg_sentence_length * float64 (avg_word_length / 5)) in
  {| Report.processing_timestamp := now;
     Report.documents_processed := nfiles;
     Report.total_words := total_words v;
     Report.unique_words := unique_words;
     Report.top_100_words := top_100_words;
     Report.document_similarity := similarity;
     Report.top_bigrams := ngram_entries 2 lower_all;
     Report.top_trigrams := ngram_entries 3 lower_all;
     Report.readability :=
       {| avg_sentence_length := py_round avg_sentence_length 3;
          avg_word_length := py_round avg_word_length 3;
          complexity_score := py_round complexity_score 6 |} |}.

(** The report of a listing: lines 43-113 without the writes. *)
Definition analyze (now : text) (files : list (text * record)) : result Report.t :=
  match ingest vars0 files with
  | Ok v => Ok (build_report now (length files) v)
  | Raise e => Raise e
  end.

(** Lines 116-117 and 119-120: each [with open(...)] block either
    completes, which is an event of the run, or raises. *)
Definition write_report (e : env) (r : Report.t) : run () :=
  if report_write_ok e then ([ReportWritten r], Ok ())
  else ([], Raise ReportWriteError).

Definition write_marker (e : env) : run () :=
  if marker_write_ok e then ([MarkerWritten (marker_time e)], Ok ())
  else ([], Raise MarkerWriteError).

(** Lines 39-41: one [Waited] for each poll that does not find the marker
    of the processor. *)
Definition wait_for_processor (e : env) : run () :=
  (replicate (polls e) Waited, Ok ()).

Definition main (e : env) : run () :=
  wait_for_processor e ;;
  r ← lift (analyze (report_time e) (listing e));
  write_report e r ;;
  write_marker e ;;
  (([PrintedComplete], Ok ()) : run ()).

End WithTable.
End Main.

Definition doc (name txt : string) : text * record :=
  (py name, Object (Some (JString (py txt)))).

Definition scenario : list (text * record) :=
  [doc "a.json" "Cats chase mice. Mice run fast."; doc "b.json" "Dogs chase cats."].

(** ** The vocabulary of the statements *)

(** How often [k] occurs in [l]. *)
Definition occ (k : text) (l : list text) : nat :=
  length (filter (λ x, x = k) l).

(** The position of the first occurrence of [k] in [l]; the length of [l]
    when there is none. *)
Fixpoint first_index (k : text) (l : list text) : nat :=
  match l with
  | [] => 0
  | x :: l' => if decide (k = x) then 0 else S (first_index k l')
  end.

(** The distinct elements of [l], each at its first occurrence. *)
Fixpoint firsts (l : list text) : list text :=
  match l with
  | [] => []
  | x :: l' => x :: filter (λ y, y ≠ x) (firsts l')
  end.

(** Ranking of counted items of the stream [l]: the greater count first,
    and among equal counts the item seen first. *)
Definition ranked_first_seen (l : list text) (a b : text * nat) : Prop :=
  b.2 < a.2 ∨ (a.2 = b.2 ∧ first_index a.1 l < first_index b.1 l).

(** Lexicographic order of strings by code point. *)
Fixpoint lex_lt (a b : text) : bool :=
  match a, b with
  | [], [] => false
  | [], _ :: _ => true
  | _ :: _, [] => false
  | x :: a', y :: b' => ((x <? y) || ((x =? y) && lex_lt a' b'))%N
  end.

(** The ranking the specification words: the greater count first, and
    among equal counts the lexicographically smaller word. *)
Definition ranked_lexicographic (a b : text * nat) : Prop :=
  b.2 < a.2 ∨ (a.2 = b.2 ∧ lex_lt a.1 b.1 = true).

(** The pairs [(l[i], l[j])] with [i < j], all pairs of the first element
    before those of the second, and so on. *)
Definition pairs_by_index {A} (l : list A) : list (A * A) :=
  i ← seq 0 (length l);
  j ← seq (S i) (length l - S i);
  match l !! i, l !! j with
  | Some a, Some b => [(a, b)]
  | _, _ => []
  end.

(** A record that the loop ingests without an exception, and the text it
    is ingested with: an absent "text" reads as the empty string. *)
Definition loadable (r : record) : bool :=
  match r with
  | Object None | Object (Some (JString _)) => true
  | _ => false
  end.

Definition doc_text (r : record) : text :=
  match r with
  | Object (Some (JString txt)) => txt
  | _ => []
  end.

Section Corpus.
Variable U : chartab.

Definition doc_tokens (f : text * record) : list text :=
  Tokenizer.tokenize U (doc_text f.2).

(** The lower-cased token set of one document. *)
Definition doc_word_set (f : text * record) : gset text :=
  list_to_set (map (str_lower U) (doc_tokens f)).

(** The lower-cased tokens of all documents, in ingestion order. *)
Definition corpus_stream (files : list (text * record)) : list text :=
  map (str_lower U) (concat (map doc_tokens files)).

(** The mean number of tokens of the sentences of one document, and the
    mean length of its tokens. *)
Definition doc_sentence_mean (f : text * record) : Q :=
  avg_int (map (λ s, length (Tokenizer.tokenize U s))
               (sentences U (doc_text f.2))).

Definition doc_word_mean (f : text * record) : Q :=
  avg_int (map length (doc_tokens f)).

(** The variables after a loop over [files] that raised nothing. *)
Definition ingested (v : vars) (files : list (text * record)) : vars :=
  {| docs := docs v ++ files;
     all_tokens := all_tokens v ++ concat (map doc_tokens files);
     doc_word_sets :=
       foldl (λ m f, <[f.1 := doc_word_set f]> m) (doc_word_sets v) files;
     total_words :=
       total_words v + sum_list (map (λ f, length (doc_tokens f)) files);
     doc_avg_sentence_len :=
       doc_avg_sentence_len v ++ map doc_sentence_mean files;
     doc_avg_word_len := doc_avg_word_len v ++ map doc_word_mean files |}.

End Corpus.

(** A record without the key "text", read as one whose text is the
    empty string. *)
Definition absent_as_empty (f : text * record) : text * record :=
  (f.1, match f.2 with
        | Object None => Object (Some (JString []))
        | r => r
        end).

(** A report entry as a counted item. *)
Definition entry_key (e : word_entry) : text * nat := (word e, count e).

(** What the specification asks of an n-gram table [top] for the token
    stream [stream]: the n-grams are the space-joined runs of [n]
    consecutive tokens of the stream, one from each position; the table
    has at most 100 entries, for distinct n-grams, each with the number of
    its occurrences, in descending order of count, and an n-gram that is
    left out occurs no more often than any listed one. *)
Definition top_ngram_table (n : nat) (stream : list text)
    (top : list ngram_entry) : Prop :=
  let grams := ngrams stream n in
  length grams = length stream + 1 - n ∧
  (∀ i, i < length grams →
        grams !! i = Some (join [SPACE] (slice stream i (i + n))) ∧
        length (slice stream i (i + n)) = n) ∧
  length top ≤ 100 ∧
  NoDup (map ngram top) ∧
  (∀ e, e ∈ top → ngram_count e = occ (ngram e) grams ∧ 0 < ngram_count e) ∧
  StronglySorted (λ a b, ngram_count b ≤ ngram_count a) top ∧
  (∀ g, g ∈ grams → g ∉ map ngram top →
        length top = 100 ∧ ∀ e, e ∈ top → occ g grams ≤ ngram_count e).

(** The similarity the specification defines for two token sets. *)
Definition set_similarity (s1 s2 : gset text) : Q :=
  if decide (s1 ∪ s2 = ∅) then 0%Q
  else (of_int (size (s1 ∩ s2)) / of_int (size (s1 ∪ s2)))%Q.

(** ** Concrete inputs *)

Definition now0 : text := py "2024-05-01T10:00:00Z".
Definition now1 : text := py "2024-05-01T10:00:01Z".

(** One document with two words, each once, the second the first in the
    alphabet. *)
Definition tie_docs : list (text * record) := [doc "a.json" "b a"].


(** Documents whose quotients are decimal ties that no double hits: one
    with 639 times "a" and one "b", for the frequencies 639/640 and 1/640;
    and one with 73 tokens of one letter and 7 of two, for the mean word
    length 87/80. *)
Definition text_of (name : string) (txt : text) : text * record :=
  (py name, Object (Some (JString txt))).

Definition frequency_tie_docs : list (text * record) :=
  [text_of "a.json" (concat (replicate 639 (py "a ")) ++ py "b")].

Definition word_length_tie_docs : list (text * record) :=
  [text_of "a.json"
     (concat (replicate 73 (py "a ")) ++ join [SPACE] (replicate 7 (py "aa")))].

(** A listing whose second file is not valid JSON, and one whose second
    record has no "text". *)
Definition unreadable_docs : list (text * record) :=
  [doc "a.json" "x y"; (py "b.json", Unreadable)].

Definition textless_docs : list (text * record) :=
  [doc "a.json" "x y"; (py "b.json", Object None)].

Definition env_of (files : list (text * record)) (report_ok marker_ok : bool) : env :=
  {| polls := 1; listing := files; report_time := now0; marker_time := now1;
     report_write_ok := report_ok; marker_write_ok := marker_ok |}.

Definition report_of (files : list (text * record)) : Report.t :=
  Main.build_report ascii_tab now0 (length files)
    (ingested ascii_tab vars0 files).

(** ** The listing of the processed directory *)

(** [s.endswith(suffix)] *)
Definition endswith (s suffix : text) : bool :=
  (length suffix <=? length s) &&
  bool_decide (drop (length s - length suffix) s = suffix).

(** [sorted] on strings: Python compares strings by code point, and the
    sort is stable; here by insertion from the right, where an element
    goes behind the elements that are smaller. *)
Fixpoint insert_sorted (x : text) (l : list text) : list text :=
  match l with
  | [] => [x]
  | y :: l' => if lex_lt y x then y :: insert_sorted x l' else x :: l
  end.

Definition sorted (l : list text) : list text := foldr insert_sorted [] l.

(** Line 43: the names of [os.listdir] that end with ".json" in any
    case, sorted. *)
Definition json_files (U : chartab) (names : list text) : list text :=
  sorted (filter (λ fn, endswith (str_lower U fn) (py ".json") = true) names).

(** The listing a run reads: each of these names with what loading the
    file gives. *)
Definition listing_of (U : chartab) (names : list text) (load : text → record)
    : list (text * record) :=
  map (λ fn, (fn, load fn)) (json_files U names).

(** [a <= b] on strings. *)
Definition lex_le (a b : text) : Prop := lex_lt b a = false.

(** The exception a record raises in the loop, if any. *)
Definition error_of (r : record) : option error :=
  match r with
  | Unreadable => Some LoadError
  | NotObject => Some AttributeError
  | Object (Some JNotString) => Some TypeError
  | Object _ => None
  end.

(** A character that is not a sentence mark, and the tail of a joined
    n-gram: every further token with the space before it. *)
Abbreviation not_mark := (λ c : N, is_mark c = false).
Abbreviation spaced := (flat_map (λ q : text, [SPACE] ++ q)).

Definition sample_text : text := py "Cats chase mice. Mice run fast.".

(** One document with a single token. *)
Definition one_word_docs : list (text * record) := [doc "a.json" "one"].

Definition textless_pair : sim_entry :=
  {| doc1 := py "a.json"; doc2 := py "b.json"; similarity := py_round 0 6 |}.

Definition abab : list text := [py "a"; py "b"; py "a"; py "b"].

(** * Properties *)

(** ** The tokenizer *)

Section TokenizerFacts.
Variable U : chartab.
Import Tokenizer.

Lemma run_length_class (l : text) (k : nat) :
  k < run_length U l → ∃ c, l !! k = Some c ∧ in_class U c = true.
Proof.
  revert k. induction l as [|c l IH]; simpl; intros k Hk; [lia|].
  destruct (in_class U c) eqn:Hc; [|lia].
  destruct k as [|k]; simpl; [eauto|]. apply IH. lia.
Qed.

Lemma run_length_stop (l : text) :
  match l !! run_length U l with
  | Some c => in_class U c = false
  | None => True
  end.
Proof.
  induction l as [|c l IH]; simpl; [done|].
  destruct (in_class U c) eqn:Hc; simpl; done.
Qed.

Lemma class_in_run (s : text) (i k : nat) :
  k < run_length U (drop i s) → class_at U s (i + k) = true.
Proof.
  intros Hk. destruct (run_length_class _ _ Hk) as (c & Hl & Hc).
  rewrite lookup_drop in Hl. unfold class_at. by rewrite Hl.
Qed.

Lemma class_after_run (s : text) (i : nat) :
  class_at U s (i + run_length U (drop i s)) = false.
Proof.
  pose proof (run_length_stop (drop i s)) as H.
  rewrite lookup_drop in H. unfold class_at.
  destruct (s !! (i + run_length U (drop i s))); done.
Qed.

(** A run of class characters from [i] ends within the greedy match. *)
Lemma class_run_bound (s : text) (i j : nat) :
  i ≤ j → (∀ k, i ≤ k < j → class_at U s k = true) →
  j ≤ i + run_length U (drop i s).
Proof.
  intros Hij Hcl. destruct (decide (j ≤ i + run_length U (drop i s))) as [|Hn]; [done|].
  pose proof (class_after_run s i) as Hstop.
  rewrite Hcl in Hstop; [done|lia].
Qed.

Lemma class_at_length (s : text) (k : nat) :
  class_at U s k = true → k < length s.
Proof.
  unfold class_at. destruct (s !! k) eqn:Hk; [|done].
  intros _. by eapply lookup_lt_Some.
Qed.

Lemma backtrack_Some (s : text) (i n j : nat) :
  backtrack U s i n = Some j →
  i < j ≤ i + n ∧ boundary U s j = true ∧
  ∀ j', j < j' ≤ i + n → boundary U s j' = false.
Proof.
  induction n as [|n IH]; simpl; [done|].
  destruct (boundary U s (i + S n)) eqn:Hb.
  - intros [= <-]. split; [lia|]. split; [done|]. intros; lia.
  - intros Hj. destruct (IH Hj) as (H1 & H2 & H3).
    split; [lia|]. split; [done|]. intros j' Hj'.
    destruct (decide (j' = i + S n)) as [->|]; [done|]. apply H3. lia.
Qed.

Lemma backtrack_None (s : text) (i n : nat) :
  backtrack U s i n = None → ∀ j', i < j' ≤ i + n → boundary U s j' = false.
Proof.
  induction n as [|n IH]; simpl; [intros; lia|].
  destruct (boundary U s (i + S n)) eqn:Hb; [done|].
  intros Hn j' Hj'. destruct (decide (j' = i + S n)) as [->|]; [done|].
  apply IH; [done|lia].
Qed.

(** A match is a span, and no run of class characters from its start
    ends at a later word boundary. *)
Lemma match_at_Some (s : text) (i j : nat) :
  match_at U s i = Some j →
  span U s i j ∧
  ∀ j', j < j' → (∀ k, i ≤ k < j' → class_at U s k = true) →
        boundary U s j' = false.
Proof.
  unfold match_at. destruct (boundary U s i) eqn:Hbi; [|done].
  intros Hbt. destruct (backtrack_Some _ _ _ _ Hbt) as (Hij & Hbj & Hlast).
  assert (Hcl : ∀ k, i ≤ k < j → class_at U s k = true).
  { intros k Hk. replace k with (i + (k - i)) by lia. apply class_in_run. lia. }
  split.
  - split; [lia|]. split; [|done].
    pose proof (class_at_length s (j - 1)) as Hlen.
    rewrite Hcl in Hlen; [|lia]. specialize (Hlen eq_refl). lia.
  - intros j' Hj' Hcl'. apply Hlast. split; [done|].
    apply class_run_bound; [lia|done].
Qed.

Lemma match_at_None (s : text) (i : nat) :
  match_at U s i = None → ∀ j, ¬ span U s i j.
Proof.
  unfold match_at. intros Hm j (Hij & Hlen & Hcl & Hbi & Hbj).
  rewrite Hbi in Hm.
  rewrite (backtrack_None _ _ _ Hm j) in Hbj; [done|].
  split; [done|]. apply class_run_bound; [lia|done].
Qed.

Lemma passed_after_match (s : text) (p j : nat) :
  passed U s p → match_at U s p = Some j → passed U s j.
Proof.
  intros Hp Hm q j' Hq Hj' Hsp.
  destruct (match_at_Some _ _ _ Hm) as ((Hpj & _ & Hcl & _ & _) & Hlast).
  destruct (decide (q < p)) as [Hlt|Hge].
  - apply (Hp q j'); [done|lia|done].
  - destruct Hsp as (_ & _ & Hcl' & _ & Hbj').
    rewrite (Hlast j') in Hbj'; [done|done|].
    intros k Hk. destruct (decide (k < j)); [apply Hcl; lia|apply Hcl'; lia].
Qed.

Lemma passed_after_failure (s : text) (p : nat) :
  passed U s p → match_at U s p = None → passed U s (S p).
Proof.
  intros Hp Hm q j' Hq Hj' Hsp.
  destruct (decide (q = p)) as [->|].
  - by apply (match_at_None _ _ Hm j').
  - apply (Hp q j'); [lia|lia|done].
Qed.

Lemma match_is_maximal (s : text) (p j : nat) :
  passed U s p → match_at U s p = Some j → maximal_span U s p j.
Proof.
  intros Hp Hm. destruct (match_at_Some _ _ _ Hm) as (Hsp & Hlast).
  split; [done|]. intros i' j' Hi' Hj' Hsp'.
  destruct (decide (i' = p)) as [->|Hne].
  - split; [done|]. destruct (decide (j' = j)) as [|Hnj]; [done|].
    destruct Hsp' as (_ & _ & Hcl' & _ & Hbj').
    rewrite (Hlast j') in Hbj'; [done|lia|done].
  - exfalso. apply (Hp i' j'); [lia| |done]. destruct Hsp as (? & _). lia.
Qed.

Lemma scan_spec (fuel : nat) (s : text) (p : nat) :
  length s ≤ fuel + p → passed U s p →
  ∀ i j, (i, j) ∈ scan U fuel s p ↔ p ≤ i ∧ maximal_span U s i j.
Proof.
  revert p. induction fuel as [|f IH]; intros p Hfuel Hp i j; simpl.
  - split; [by intros ?%elem_of_nil|].
    intros (Hpi & (Hij & Hlen & _) & _). lia.
  - destruct (match_at U s p) as [e|] eqn:Hm.
    + pose proof (match_is_maximal _ _ _ Hp Hm) as Hmax.
      pose proof (passed_after_match _ _ _ Hp Hm) as Hpe.
      assert (Hpe' : p < e) by (destruct Hmax as ((? & _) & _); done).
      rewrite elem_of_cons, IH by (done || lia). split.
      * intros [[= -> ->]|[Hei Hmx]]; [done|]. split; [lia|done].
      * intros (Hpi & Hmx).
        destruct (decide (e ≤ i)) as [|Hlt]; [by right|left].
        destruct (decide (i = p)) as [->|Hne].
        -- destruct Hmx as (Hsp & Hmx). destruct Hmax as (Hsp' & Hmax).
           destruct (decide (j ≤ e)) as [Hje|Hje].
           ++ destruct (Hmx p e) as [_ ->]; done.
           ++ destruct (Hmax p j) as [_ ->]; [done|lia|done|done].
        -- exfalso. destruct (decide (j ≤ e)) as [Hje|Hje].
           ++ destruct Hmx as (_ & Hmx). destruct Hmax as (Hsp' & _).
              destruct (Hmx p e) as [-> _]; [lia|done|done|done].
           ++ destruct Hmx as (Hsp & _). apply (Hpe i j); [lia|lia|done].
    + pose proof (passed_after_failure _ _ Hp Hm) as Hp'.
      rewrite IH by (done || lia). split.
      * intros [? ?]. split; [lia|done].
      * intros (Hpi & Hmx). split; [|done].
        destruct (decide (i = p)) as [->|]; [|lia].
        destruct Hmx as (Hsp & _). by destruct (match_at_None _ _ Hm j).
Qed.

Lemma scan_left_to_right (fuel : nat) (s : text) (p : nat) :
  length s ≤ fuel + p → passed U s p → left_to_right (scan U fuel s p).
Proof.
  revert p. induction fuel as [|f IH]; intros p Hfuel Hp; simpl.
  - constructor.
  - destruct (match_at U s p) as [e|] eqn:Hm.
    + pose proof (passed_after_match _ _ _ Hp Hm) as Hpe.
      assert (Hpe' : p < e).
      { destruct (match_at_Some _ _ _ Hm) as ((? & _) & _). done. }
      constructor; [apply IH; [lia|done]|].
      apply Forall_forall. intros [a b] Hab.
      apply scan_spec in Hab; [|lia|done]. simpl. lia.
    + apply IH; [lia|]. by apply passed_after_failure.
Qed.

Lemma passed_start (s : text) : passed U s 0.
Proof. intros q j Hq. lia. Qed.

(** C6. For every text, [tokenize] returns, from left to right, the
    substrings at the maximal spans of the text: the runs of letters,
    digits, underscores and hyphens that begin and end at a word boundary
    and that no longer such run contains, so that a hyphen inside a token
    is kept; the empty text has no token. *)
Theorem tokenize_maximal_runs (txt : text) :
  tokenize U txt = map (λ m, slice txt m.1 m.2) (findall U txt) ∧
  (∀ i j, (i, j) ∈ findall U txt ↔ maximal_span U txt i j) ∧
  left_to_right (findall U txt) ∧
  tokenize U [] = [].
Proof.
  split; [done|]. split; [|split; [|done]].
  - intros i j. unfold findall.
    rewrite scan_spec; [|lia|apply passed_start]. split; [by intros [_ ?]|].
    intros H. split; [lia|done].
  - apply scan_left_to_right; [lia|apply passed_start].
Qed.

End TokenizerFacts.

(** ** Counters *)

Section CounterFacts.
Import Counter.

Lemma occ_snoc k l x :
  occ k (l ++ [x]) = if decide (k = x) then S (occ k l) else occ k l.
Proof.
  unfold occ. rewrite filter_app, length_app. simpl.
  rewrite filter_cons, filter_nil.
  destruct (decide (x = k)) as [->|Hne]; simpl.
  - rewrite decide_True by done. lia.
  - rewrite decide_False by done. lia.
Qed.

Lemma occ_pos k l : 0 < occ k l ↔ k ∈ l.
Proof.
  unfold occ. induction l as [|x l IH]; simpl.
  - split; [lia|by intros ?%elem_of_nil].
  - rewrite filter_cons, elem_of_cons.
    destruct (decide (x = k)) as [->|Hne]; simpl; [split; [by left|lia]|].
    rewrite IH. split; [by right|]. intros [->|]; done.
Qed.

Lemma elem_of_firsts k l : k ∈ firsts l ↔ k ∈ l.
Proof.
  induction l as [|x l IH]; simpl; [done|].
  rewrite !elem_of_cons, list_elem_of_filter, IH.
  destruct (decide (k = x)); naive_solver.
Qed.

Lemma NoDup_firsts l : NoDup (firsts l).
Proof.
  induction l as [|x l IH]; simpl; [constructor|].
  constructor; [|by apply NoDup_filter].
  rewrite list_elem_of_filter. naive_solver.
Qed.

Lemma firsts_snoc l x :
  firsts (l ++ [x]) = if decide (x ∈ l) then firsts l else firsts l ++ [x].
Proof.
  induction l as [|y l IH]; simpl; [done|]. rewrite IH.
  destruct (decide (x = y)) as [->|Hne].
  - rewrite (decide_True (P:=y ∈ y :: l)) by left.
    destruct (decide (y ∈ l)); [done|].
    rewrite filter_app, filter_cons, filter_nil.
    rewrite decide_False by naive_solver. by rewrite app_nil_r.
  - destruct (decide (x ∈ l)) as [Hin|Hnin].
    + rewrite decide_True by (by right). done.
    + rewrite decide_False by (rewrite elem_of_cons; naive_solver).
      rewrite filter_app, filter_cons, filter_nil.
      rewrite decide_True by done. done.
Qed.

Lemma StronglySorted_filter {A} (R : relation A) (P : A → Prop)
    `{∀ x, Decision (P x)} (l : list A) :
  StronglySorted R l → StronglySorted R (filter P l).
Proof.
  induction 1 as [|a l Hl IH Hall]; [constructor|].
  rewrite filter_cons. destruct (decide (P a)); [|done].
  constructor; [done|]. apply Forall_forall.
  intros b [_ Hb]%list_elem_of_filter.
  rewrite Forall_forall in Hall. by apply Hall.
Qed.

Lemma StronglySorted_impl_in {A} (R R' : relation A) (l : list A) :
  (∀ a b, a ∈ l → b ∈ l → R a b → R' a b) →
  StronglySorted R l → StronglySorted R' l.
Proof.
  intros HR Hl. induction Hl as [|a l Hl IH Hall]; [constructor|].
  constructor.
  - apply IH. intros b c Hb Hc. apply HR; by right.
  - apply Forall_forall. intros b Hb. rewrite Forall_forall in Hall.
    apply HR; [by left|by right|by apply Hall].
Qed.

Lemma StronglySorted_map {A B} (R : relation B) (f : A → B) (l : list A) :
  StronglySorted (λ a b, R (f a) (f b)) l → StronglySorted R (map f l).
Proof.
  induction 1 as [|a l Hl IH Hall]; simpl; constructor; [done|].
  by apply Forall_fmap.
Qed.

(** The items of [firsts l] stand in the order of their first
    occurrences. *)
Lemma firsts_sorted l :
  StronglySorted (λ a b, first_index a l < first_index b l) (firsts l).
Proof.
  induction l as [|x l IH]; simpl; [constructor|].
  constructor.
  - apply (StronglySorted_filter _ (λ y, y ≠ x)) in IH.
    revert IH. apply StronglySorted_impl_in.
    intros a b [Ha _]%list_elem_of_filter [Hb _]%list_elem_of_filter Hab.
    rewrite !decide_False by done. lia.
  - apply Forall_forall. intros b [Hb _]%list_elem_of_filter.
    rewrite decide_True by done. rewrite decide_False by done. lia.
Qed.

Lemma incr_fresh k (c : Counter.t) : k ∉ c.*1 → incr k c = c ++ [(k, 1)].
Proof.
  induction c as [|[k' n] c IH]; simpl; [done|].
  rewrite not_elem_of_cons. intros [Hne Hnin].
  rewrite decide_False by done. by rewrite IH.
Qed.

Lemma incr_counted (f : text → nat) (ks : list text) (x : text) :
  NoDup ks → x ∈ ks →
  incr x (map (λ k, (k, f k)) ks) =
  map (λ k, (k, if decide (k = x) then S (f k) else f k)) ks.
Proof.
  induction ks as [|k ks IH]; simpl; [by intros _ ?%elem_of_nil|].
  intros [Hk Hks]%NoDup_cons Hx. destruct (decide (x = k)) as [->|Hne].
  - rewrite decide_True by done. f_equal.
    apply map_ext_in. intros a Ha%list_elem_of_In.
    rewrite decide_False; [done|]. by intros ->.
  - rewrite (decide_False (P:=k = x)) by done. f_equal.
    apply IH; [done|]. apply elem_of_cons in Hx as [|]; done.
Qed.

(** The counter of a stream lists its distinct items in the order of
    their first occurrences, each with the number of its occurrences. *)
Lemma of_list_firsts (l : list text) :
  of_list l = map (λ k, (k, occ k l)) (firsts l).
Proof.
  induction l as [|x l IH] using rev_ind; [done|].
  unfold of_list in *. rewrite foldl_snoc, IH, firsts_snoc.
  destruct (decide (x ∈ l)) as [Hin|Hnin].
  - rewrite incr_counted; [|apply NoDup_firsts|by apply elem_of_firsts].
    apply map_ext. intros k. by rewrite occ_snoc.
  - rewrite incr_fresh.
    + rewrite map_app. simpl. f_equal.
      * apply map_ext_in. intros k Hk%list_elem_of_In.
        rewrite elem_of_firsts in Hk.
        rewrite occ_snoc, decide_False; [done|]. intros ->. by apply Hnin.
      * rewrite occ_snoc, decide_True by done.
        destruct (occ_pos x l) as [Hp _].
        destruct (occ x l); [done|]. exfalso. apply Hnin, Hp. lia.
    + rewrite <- list_fmap_compose. simpl. rewrite list_fmap_id.
      by rewrite elem_of_firsts.
Qed.

Lemma insert_desc_perm x (c : Counter.t) : insert_desc x c ≡ₚ x :: c.
Proof.
  induction c as [|y c IH]; simpl; [done|].
  destruct (x.2 <? y.2); [|done]. rewrite IH. apply Permutation_swap.
Qed.

Lemma sorted_desc_perm (c : Counter.t) : sorted_desc c ≡ₚ c.
Proof.
  induction c as [|x c IH]; simpl; [done|].
  unfold sorted_desc in *. simpl. by rewrite insert_desc_perm, IH.
Qed.

Section Stable.
Variable l : list text.

(** Inserting an item that stood before all of [c] keeps the ranking. *)
Lemma insert_desc_ranked x (c : Counter.t) :
  StronglySorted (ranked_first_seen l) c →
  Forall (λ y, first_index x.1 l < first_index y.1 l) c →
  StronglySorted (ranked_first_seen l) (insert_desc x c).
Proof.
  induction 1 as [|y c Hc IH Hy]; simpl; intros Hx.
  - repeat constructor.
  - apply Forall_cons in Hx as [Hxy Hx].
    destruct (x.2 <? y.2) eqn:Hlt.
    + apply Nat.ltb_lt in Hlt. constructor; [by apply IH|].
      rewrite insert_desc_perm. constructor; [by left|done].
    + apply Nat.ltb_ge in Hlt. constructor; [by constructor|].
      constructor.
      * unfold ranked_first_seen. lia.
      * rewrite Forall_forall in Hy, Hx. apply Forall_forall. intros z Hz.
        specialize (Hy z Hz). specialize (Hx z Hz).
        unfold ranked_first_seen in *. lia.
Qed.

Lemma sorted_desc_ranked (c : Counter.t) :
  StronglySorted (λ a b, first_index a.1 l < first_index b.1 l) c →
  StronglySorted (ranked_first_seen l) (sorted_desc c).
Proof.
  induction 1 as [|x c Hc IH Hx]; [constructor|].
  unfold sorted_desc in *. simpl. apply insert_desc_ranked; [done|].
  fold (sorted_desc c). by rewrite sorted_desc_perm.
Qed.

End Stable.

Lemma StronglySorted_take {A} (R : relation A) (n : nat) (l : list A) :
  StronglySorted R l → StronglySorted R (take n l).
Proof.
  intros Hl. rewrite <- (take_drop n l) in Hl.
  by apply StronglySorted_app_1_l in Hl.
Qed.

(** What [most_common] returns for the counter of a stream. *)
Lemma most_common_spec (n : nat) (l : list text) :
  let top := most_common n (of_list l) in
  length top ≤ n ∧
  NoDup top.*1 ∧
  (∀ e, e ∈ top → e.2 = occ e.1 l ∧ 0 < e.2) ∧
  StronglySorted (ranked_first_seen l) top ∧
  (∀ k, k ∈ l → k ∉ top.*1 →
        length top = n ∧
        ∀ e, e ∈ top → ranked_first_seen l e (k, occ k l)).
Proof.
  intros top.
  assert (Hsorted : StronglySorted (ranked_first_seen l) (sorted_desc (of_list l))).
  { apply sorted_desc_ranked. rewrite of_list_firsts.
    apply StronglySorted_map. simpl. apply firsts_sorted. }
  assert (Hperm : sorted_desc (of_list l) ≡ₚ map (λ k, (k, occ k l)) (firsts l)).
  { rewrite sorted_desc_perm. by rewrite of_list_firsts. }
  assert (Hkeys : NoDup (sorted_desc (of_list l)).*1).
  { rewrite Hperm. rewrite <- list_fmap_compose. simpl. rewrite list_fmap_id.
    apply NoDup_firsts. }
  assert (Helem : ∀ e, e ∈ sorted_desc (of_list l) ↔ e.2 = occ e.1 l ∧ e.1 ∈ l).
  { intros [k c]. rewrite Hperm, list_elem_of_fmap. simpl. split.
    - intros (k' & Heq & Hk). rewrite elem_of_firsts in Hk. by simplify_eq.
    - intros [-> Hk]. exists k. by rewrite elem_of_firsts. }
  unfold top, most_common. split; [|split; [|split; [|split]]].
  - rewrite length_take. lia.
  - rewrite <- (take_drop n (sorted_desc (of_list l))), fmap_app in Hkeys.
    by apply NoDup_app in Hkeys as [? _].
  - intros e He. apply elem_of_take in He as (i & He & _).
    apply list_elem_of_lookup_2, Helem in He as [-> Hin].
    split; [done|]. by apply occ_pos.
  - by apply StronglySorted_take.
  - intros k Hk Hnot.
    assert (Hin : (k, occ k l) ∈ sorted_desc (of_list l)) by (by apply Helem).
    rewrite <- (take_drop n (sorted_desc (of_list l))) in Hin, Hsorted.
    apply elem_of_app in Hin as [Hin|Hin].
    { exfalso. apply Hnot. apply list_elem_of_fmap. by exists (k, occ k l). }
    split.
    + rewrite length_take. apply Nat.min_l.
      destruct (decide (n ≤ length (sorted_desc (of_list l)))) as [|Hn]; [done|].
      rewrite drop_ge in Hin by lia. by apply elem_of_nil in Hin.
    + intros e He. by eapply StronglySorted_app_1_elem_of.
Qed.

End CounterFacts.

(** ** Doubles and rounding *)

Lemma round_half_even_near (q : Q) :
  (Qabs (inject_Z (round_half_even q) - q) <= 1 # 2)%Q.
Proof.
  unfold round_half_even.
  pose proof (Qfloor_le q) as Hlo. pose proof (Qlt_floor q) as Hhi.
  rewrite inject_Z_plus in Hhi. change (inject_Z 1) with 1%Q in Hhi.
  apply Qabs_Qle_condition.
  destruct (Qcompare_spec (q - inject_Z (Qfloor q)) (1 # 2)) as [He|Hl|Hg].
  - destruct (Z.even (Qfloor q)); rewrite ?inject_Z_plus;
      change (inject_Z 1) with 1%Q; split; lra.
  - split; lra.
  - rewrite inject_Z_plus. change (inject_Z 1) with 1%Q. split; lra.
Qed.

Lemma round_half_even_le (q : Q) (k : Z) :
  (q <= inject_Z k)%Q → (round_half_even q ≤ k)%Z.
Proof.
  intros Hq. unfold round_half_even.
  pose proof (Qfloor_le q) as Hlo.
  assert (Hfk : (Qfloor q ≤ k)%Z) by (rewrite Zle_Qle; lra).
  assert (Hstep : (inject_Z (Qfloor q) + (1 # 2) <= q)%Q → (Qfloor q + 1 ≤ k)%Z).
  { intros H. assert (Hlt : (Qfloor q < k)%Z) by (rewrite Zlt_Qlt; lra). lia. }
  destruct (Qcompare_spec (q - inject_Z (Qfloor q)) (1 # 2)) as [He|Hl|Hg].
  - destruct (Z.even (Qfloor q)); [done|]. apply Hstep. lra.
  - done.
  - apply Hstep. lra.
Qed.

#[local] Instance round_half_even_proper : Proper (Qeq ==> eq) round_half_even.
Proof.
  intros q q' H. unfold round_half_even.
  rewrite (Qfloor_comp _ _ H).
  assert (Hc : (q - inject_Z (Qfloor q') ?= 1 # 2)%Q =
               (q' - inject_Z (Qfloor q') ?= 1 # 2)%Q) by (by rewrite H).
  by rewrite Hc.
Qed.

Lemma two_pow_succ (e : Z) : (2 ^ (e + 1) == 2 * 2 ^ e)%Q.
Proof. rewrite Qpower_plus by done. change (2 ^ 1)%Q with 2%Q. ring. Qed.

Lemma two_pow_Z (n : Z) : (0 ≤ n)%Z → (inject_Z (2 ^ n) == 2 ^ n)%Q.
Proof. intros Hn. by rewrite Zpower_Qpower. Qed.

Lemma Zlog2_Q (a : Z) :
  (0 < a)%Z →
  (2 ^ Z.log2 a <= inject_Z a)%Q ∧ (inject_Z a < 2 * 2 ^ Z.log2 a)%Q.
Proof.
  intros Ha. destruct (Z.log2_spec a Ha) as [Hlo Hhi].
  pose proof (Z.log2_nonneg a) as Hnn.
  rewrite <- two_pow_Z by done. split.
  - by rewrite <- Zle_Qle.
  - change 2%Q with (inject_Z 2). rewrite <- inject_Z_mult, <- Zlt_Qlt.
    rewrite <- Z.pow_succ_r by done. done.
Qed.

Lemma quotient_bounds (A B PA PB : Q) :
  (0 < PA)%Q → (0 < PB)%Q → (PA <= A)%Q → (A < 2 * PA)%Q →
  (PB <= B)%Q → (B < 2 * PB)%Q →
  (PA / PB < 2 * (A / B))%Q ∧ (A / B < 2 * (PA / PB))%Q.
Proof.
  intros HPA HPB HA1 HA2 HB1 HB2.
  assert (Hr : (PA / PB * PB == PA)%Q) by (field; lra).
  assert (Hs : (A / B * B == A)%Q) by (field; lra).
  assert (Hr0 : (0 < PA / PB)%Q) by (apply Qlt_shift_div_l; lra).
  assert (Hs0 : (0 < A / B)%Q) by (apply Qlt_shift_div_l; lra).
  set (r := (PA / PB)%Q) in *. set (s := (A / B)%Q) in *.
  split.
  - apply Qnot_le_lt. intros Hle.
    assert (2 * s * PB <= r * PB)%Q by (apply Qmult_le_compat_r; lra).
    assert (s * B < s * (2 * PB))%Q by (apply Qmult_lt_l; lra).
    lra.
  - apply Qnot_le_lt. intros Hle.
    assert (2 * r * B <= s * B)%Q by (apply Qmult_le_compat_r; lra).
    assert (r * PB <= r * B)%Q
      by (rewrite !(Qmult_comm r); apply Qmult_le_compat_r; lra).
    lra.
Qed.

(** [Qlog2] is the binary exponent. *)
Lemma Qlog2_spec (q : Q) :
  (0 < q)%Q → (2 ^ Qlog2 q <= q)%Q ∧ (q < 2 ^ (Qlog2 q + 1))%Q.
Proof.
  intros Hq. unfold Qlog2. destruct q as [a b]. cbn [Qnum Qden].
  assert (Ha : (0 < a)%Z).
  { unfold Qlt in Hq. simpl in Hq. lia. }
  destruct (Zlog2_Q a Ha) as [Ha1 Ha2].
  destruct (Zlog2_Q (Zpos b) eq_refl) as [Hb1 Hb2].
  set (la := Z.log2 a) in *. set (lb := Z.log2 (Z.pos b)) in *.
  pose proof (two_pow_pos la) as Hpa. pose proof (two_pow_pos lb) as Hpb.
  assert (Hk : (2 ^ (la - lb) == 2 ^ la / 2 ^ lb)%Q) by (apply Qpower_minus; lra).
  assert (Hq' : (a # b == inject_Z a / inject_Z (Z.pos b))%Q) by apply Qmake_Qdiv.
  destruct (quotient_bounds _ _ _ _ Hpa Hpb Ha1 Ha2 Hb1 Hb2) as [Hdown Hup].
  rewrite <- Hk, <- Hq' in Hdown, Hup.
  destruct (Qle_bool (2 ^ (la - lb)) (a # b)) eqn:Hle.
  - apply Qle_bool_iff in Hle. split; [done|]. by rewrite two_pow_succ.
  - assert (Hlt : (a # b < 2 ^ (la - lb))%Q).
    { apply Qnot_le_lt. intros H. apply Qle_bool_iff in H. congruence. }
    replace (la - lb - 1 + 1)%Z with (la - lb)%Z by lia. split; [|done].
    assert (He : (2 ^ (la - lb) == 2 * 2 ^ (la - lb - 1))%Q).
    { rewrite <- two_pow_succ.
      by replace (la - lb - 1 + 1)%Z with (la - lb)%Z by lia. }
    lra.
Qed.

Lemma float64_proper (q q' : Q) : (q == q')%Q → float64 q = float64 q'.
Proof. intros H. unfold float64. by rewrite (Qred_complete _ _ H). Qed.

Lemma Qabs_of_pos (q : Q) : (0 < q)%Q → Qabs q = q.
Proof.
  destruct q as [a b]. unfold Qlt, Qabs. simpl. intros H.
  f_equal. apply Z.abs_eq. lia.
Qed.

Lemma Qeq_bool_pos (q : Q) : (0 < q)%Q → Qeq_bool q 0 = false.
Proof.
  intros H. destruct (Qeq_bool q 0) eqn:E; [|done].
  apply Qeq_bool_iff in E. lra.
Qed.

(** [float64 q] is a double and the one nearest to [q]: an integer of at
    most 53 bits times a power of two that is at least the least
    subnormal, [2^-1074], within half of that power of [q]; and the power
    is the unit in the last place of [q], that is, [q] is at least [2^52]
    of them unless it is subnormal. *)
Lemma float64_nearest (q : Q) :
  ¬ (q == 0)%Q →
  ∃ (m e : Z),
    (float64 q == inject_Z m * 2 ^ e)%Q ∧
    (-1074 ≤ e)%Z ∧ (Z.abs m ≤ 2 ^ 53)%Z ∧
    (Qabs (float64 q - q) <= 2 ^ e / 2)%Q ∧
    (e = (-1074)%Z ∨ (2 ^ 52 * 2 ^ e <= Qabs q)%Q).
Proof.
  intros Hne. unfold float64.
  pose proof (Qred_correct q) as Hr. set (q' := Qred q) in *.
  assert (Hne' : ¬ (q' == 0)%Q) by (by rewrite Hr).
  destruct (Qeq_bool q' 0) eqn:E; [by apply Qeq_bool_iff in E|].
  assert (Ha : (0 < Qabs q')%Q).
  { destruct (Qle_lt_or_eq _ _ (Qabs_nonneg q')) as [H|H]; [done|].
    destruct Hne'. symmetry in H. revert H. apply Qabs_case; intros; lra. }
  destruct (Qlog2_spec _ Ha) as [Hlo Hhi].
  set (L := Qlog2 (Qabs q')) in *. set (e := Z.max (L - 52) (-1074)).
  pose proof (two_pow_pos e) as He.
  exists (round_half_even (q' / 2 ^ e)), e.
  assert (Hq : (q' / 2 ^ e * 2 ^ e == q)%Q) by (rewrite <- Hr; field; lra).
  pose proof (round_half_even_near (q' / 2 ^ e)) as Hn.
  set (m := round_half_even (q' / 2 ^ e)) in *.
  assert (Hbound : (Qabs (q' / 2 ^ e) <= inject_Z (2 ^ 53))%Q).
  { rewrite two_pow_Z by lia.
    unfold Qdiv. rewrite Qabs_Qmult, (Qabs_pos (/ 2 ^ e)) by
      (apply Qlt_le_weak, Qinv_lt_0_compat; done).
    apply Qle_shift_div_r; [done|].
    rewrite <- Qpower_plus by lra.
    apply Qlt_le_weak. eapply Qlt_le_trans; [exact Hhi|].
    apply Qpower_le_compat_l; [lia|lra]. }
  apply Qabs_Qle_condition in Hbound as [Hb1 Hb2].
  split; [reflexivity|]. split; [lia|]. split; [|split].
  - apply Z.abs_le. split.
    + apply round_half_even_ge. by rewrite inject_Z_opp.
    + by apply round_half_even_le.
  - assert (Hd : (inject_Z m * 2 ^ e - q == (inject_Z m - q' / 2 ^ e) * 2 ^ e)%Q).
    { rewrite <- Hq at 1. ring. }
    rewrite Hd, Qabs_Qmult, (Qabs_pos (2 ^ e)) by lra.
    assert (Hh : (2 ^ e / 2 == (1 # 2) * 2 ^ e)%Q) by (field; lra).
    rewrite Hh. apply Qmult_le_compat_r; [done|lra].
  - destruct (decide (e = (-1074)%Z)) as [->|Hen]; [by left|right].
    assert (e = (L - 52)%Z) as -> by lia.
    rewrite <- Qpower_plus by lra.
    replace (52 + (L - 52))%Z with L by lia.
    by rewrite <- Hr.
Qed.

(** Below [2^53] the double nearest to a positive [q] is [q] rounded to
    a multiple of [1/N], for a positive integer [N]. *)
Lemma float64_below (q : Q) :
  (0 < q)%Q → (q < 2 ^ 53)%Q →
  ∃ N : Z, (0 < N)%Z ∧
    (float64 q == inject_Z (round_half_even (q * inject_Z N)) / inject_Z N)%Q.
Proof.
  intros H0 H1. unfold float64.
  pose proof (Qred_correct q) as Hr. set (q' := Qred q) in *.
  assert (H0' : (0 < q')%Q) by lra.
  rewrite (Qeq_bool_pos _ H0'), (Qabs_of_pos _ H0').
  destruct (Qlog2_spec q' H0') as [Hlo _].
  assert (HL : (Qlog2 q' < 53)%Z).
  { apply (Qpower_lt_compat_l_inv 2); lra. }
  set (e := Z.max (Qlog2 q' - 52) (-1074)).
  assert (He : (e ≤ 0)%Z) by lia.
  exists (2 ^ (- e))%Z.
  assert (HN : (0 < 2 ^ (- e))%Z) by (apply Z.pow_pos_nonneg; lia).
  split; [done|].
  assert (HNq : (0 < inject_Z (2 ^ (- e)))%Q).
  { change 0%Q with (inject_Z 0). by rewrite <- Zlt_Qlt. }
  assert (Hinv : (2 ^ e == / inject_Z (2 ^ (- e)))%Q).
  { rewrite two_pow_Z by lia. rewrite Qpower_opp, Qinv_involutive. done. }
  assert (Harg : (q' / 2 ^ e == q * inject_Z (2 ^ (- e)))%Q).
  { rewrite Hinv, Hr. field. lra. }
  rewrite (round_half_even_proper _ _ Harg), Hinv. done.
Qed.

(** Rounding to a double does not cross an integer below [2^53]. *)
Lemma float64_le_Z (q : Q) (k : Z) :
  (0 <= q)%Q → (q <= inject_Z k)%Q → (k < 2 ^ 53)%Z →
  (float64 q <= inject_Z k)%Q.
Proof.
  intros H0 Hk Hlt.
  assert (Hk0 : (0 <= inject_Z k)%Q) by lra.
  destruct (Qle_lt_or_eq _ _ H0) as [Hpos|Hz].
  - assert (Hlt' : (q < 2 ^ 53)%Q).
    { rewrite <- (two_pow_Z 53) by lia. eapply Qle_lt_trans; [exact Hk|].
      by rewrite <- Zlt_Qlt. }
    destruct (float64_below q Hpos Hlt') as (N & HN & ->).
    assert (HNq : (0 < inject_Z N)%Q).
    { change 0%Q with (inject_Z 0). by rewrite <- Zlt_Qlt. }
    apply Qle_shift_div_r; [done|]. rewrite <- inject_Z_mult, <- Zle_Qle.
    apply round_half_even_le. rewrite inject_Z_mult.
    apply Qmult_le_compat_r; lra.
  - rewrite <- (float64_proper 0 q Hz). done.
Qed.

Lemma float64_ge_Z (q : Q) (k : Z) :
  (0 <= inject_Z k)%Q → (inject_Z k <= q)%Q → (q < 2 ^ 53)%Q →
  (inject_Z k <= float64 q)%Q.
Proof.
  intros Hk0 Hk Hlt.
  assert (H0 : (0 <= q)%Q) by lra.
  destruct (Qle_lt_or_eq _ _ H0) as [Hpos|Hz].
  - destruct (float64_below q Hpos Hlt) as (N & HN & ->).
    assert (HNq : (0 < inject_Z N)%Q).
    { change 0%Q with (inject_Z 0). by rewrite <- Zlt_Qlt. }
    apply Qle_shift_div_l; [done|]. rewrite <- inject_Z_mult, <- Zle_Qle.
    apply round_half_even_ge. rewrite inject_Z_mult.
    apply Qmult_le_compat_r; lra.
  - rewrite <- (float64_proper 0 q Hz). change (float64 0) with 0%Q. lra.
Qed.

Lemma float64_unit (q : Q) :
  (0 <= q)%Q → (q <= 1)%Q → (0 <= float64 q)%Q ∧ (float64 q <= 1)%Q.
Proof.
  intros H0 H1. split; [by apply float64_nonneg|].
  apply (float64_le_Z q 1); done.
Qed.

Lemma py_round_proper (q q' : Q) (n : nat) :
  (q == q')%Q → py_round q n = py_round q' n.
Proof. intros H. unfold py_round. by rewrite (float64_proper _ _ H). Qed.

Lemma round_half_even_Z (k : Z) : round_half_even (inject_Z k) = k.
Proof.
  unfold round_half_even. rewrite Qfloor_Z.
  assert (H : (inject_Z k - inject_Z k ?= 1 # 2)%Q = Lt).
  { apply (proj1 (Qlt_alt _ _)). lra. }
  by rewrite H.
Qed.

(** A double is the double nearest to itself. *)
Lemma float64_idem (q : Q) : (float64 (float64 q) == float64 q)%Q.
Proof.
  destruct (Qeq_dec q 0) as [Hz|Hne].
  { rewrite (float64_proper q 0%Q Hz). reflexivity. }
  destruct (float64_nearest q Hne) as (m & e & Hv & He & Hm & _ & _).
  set (v := float64 q) in *.
  pose proof (two_pow_pos e) as Hpe.
  destruct (decide (m = 0%Z)) as [->|Hm0].
  { assert (Hv0 : (v == 0)%Q) by (rewrite Hv; ring).
    rewrite (float64_proper v 0%Q Hv0), Hv0. reflexivity. }
  assert (Hvne : ¬ (v == 0)%Q).
  { rewrite Hv. intros H. apply Qmult_integral in H as [H|H]; [|lra].
    change 0%Q with (inject_Z 0) in H.
    apply (proj1 (inject_Z_injective _ _)) in H. done. }
  unfold float64 at 1.
  pose proof (Qred_correct v) as Hr. set (v' := Qred v) in *.
  assert (Hne' : ¬ (v' == 0)%Q) by (by rewrite Hr).
  destruct (Qeq_bool v' 0) eqn:E; [by apply Qeq_bool_iff in E|].
  assert (Habs : (Qabs v' == inject_Z (Z.abs m) * 2 ^ e)%Q).
  { rewrite Hr, Hv, Qabs_Qmult, (Qabs_pos (2 ^ e)) by lra. reflexivity. }
  assert (Ha : (0 < Qabs v')%Q).
  { rewrite Habs. apply Qmult_lt_0_compat; [|done].
    change 0%Q with (inject_Z 0). rewrite <- Zlt_Qlt. lia. }
  destruct (Qlog2_spec _ Ha) as [Hlo _].
  set (L := Qlog2 (Qabs v')) in *. set (e' := Z.max (L - 52) (-1074)).
  pose proof (two_pow_pos e') as Hpe'.
  assert (HL : (L ≤ 53 + e)%Z).
  { apply (Qpower_le_compat_l_inv 2); [|lra].
    eapply Qle_trans; [exact Hlo|]. rewrite Habs, Qpower_plus by lra.
    apply Qmult_le_compat_r; [|lra].
    rewrite <- (two_pow_Z 53) by lia. by rewrite <- Zle_Qle. }
  assert (Hint : ∃ k : Z, (v' / 2 ^ e' == inject_Z k)%Q).
  { destruct (decide (L ≤ 52 + e)%Z) as [Hle|Hgt].
    - exists (m * 2 ^ (e - e'))%Z.
      rewrite inject_Z_mult, two_pow_Z by lia.
      rewrite Qpower_minus by lra. rewrite Hr, Hv. field. lra.
    - assert (L = (53 + e)%Z) as HLe by lia.
      assert (e' = (e + 1)%Z) as -> by lia.
      assert (Hbig : (2 ^ 53 ≤ Z.abs m)%Z).
      { rewrite Zle_Qle, two_pow_Z by lia.
        apply (Qmult_le_r _ _ (2 ^ e)); [done|].
        rewrite <- Qpower_plus, <- Habs, <- HLe by lra. done. }
      exists (m / 2)%Z.
      assert (Hm2 : m = (2 * (m / 2))%Z).
      { assert (Z.abs m = 2 ^ 53)%Z as Heq by lia.
        change (2 ^ 53)%Z with 9007199254740992%Z in Heq.
        destruct (Z.abs_eq_or_opp m) as [Hs|Hs]; rewrite Hs in Heq.
        - rewrite Heq. reflexivity.
        - assert (m = (- 9007199254740992)%Z) as -> by lia. reflexivity. }
      rewrite Hr, Hv, two_pow_succ. rewrite Hm2 at 1.
      rewrite inject_Z_mult. change (inject_Z 2) with 2%Q. field. lra. }
  destruct Hint as [k Hk].
  rewrite (round_half_even_proper _ _ Hk), round_half_even_Z, <- Hk, <- Hr.
  field. lra.
Qed.

(** [round] of the double nearest to [q] is [round] at [q]. *)
Lemma py_round_float64 (q : Q) (n : nat) :
  py_round (float64 q) n = py_round q n.
Proof.
  unfold py_round.
  assert (H : (float64 (float64 q) * inject_Z (10 ^ Z.of_nat n) ==
               float64 q * inject_Z (10 ^ Z.of_nat n))%Q)
    by (by rewrite float64_idem).
  by rewrite (round_half_even_proper _ _ H).
Qed.

(** [round(x, n)] is the double nearest to a decimal of [n] places that
    is at most half a unit of the last place away from the float [x]. *)
Lemma py_round_near (q : Q) (n : nat) :
  ∃ k : Z,
    py_round q n = float64 (inject_Z k / inject_Z (10 ^ Z.of_nat n)) ∧
    (Qabs (inject_Z k / inject_Z (10 ^ Z.of_nat n) - float64 q) <=
       (1 # 2) / inject_Z (10 ^ Z.of_nat n))%Q.
Proof.
  unfold py_round. set (x := float64 q). set (p := inject_Z (10 ^ Z.of_nat n)).
  exists (round_half_even (x * p)). split; [done|].
  assert (Hp : (0 < p)%Q).
  { unfold p. change 0%Q with (inject_Z 0). rewrite <- Zlt_Qlt.
    apply Z.pow_pos_nonneg; lia. }
  pose proof (round_half_even_near (x * p)) as H.
  apply Qabs_Qle_condition in H as [H1 H2]. apply Qabs_Qle_condition.
  set (y := inject_Z (round_half_even (x * p))) in *.
  assert (E1 : (y / p - x == (y - x * p) / p)%Q) by (field; lra).
  assert (E2 : (- ((1 # 2) / p) == (- (1 # 2)) / p)%Q) by (field; lra).
  assert (Hinv : (0 <= / p)%Q) by (apply Qlt_le_weak, Qinv_lt_0_compat; done).
  rewrite E1, E2. split; by apply Qmult_le_compat_r.
Qed.

(** Rounding keeps a value of the unit interval in the unit interval. *)
Lemma py_round_unit (q : Q) (n : nat) :
  (0 <= q)%Q → (q <= 1)%Q → (0 <= py_round q n)%Q ∧ (py_round q n <= 1)%Q.
Proof.
  intros H0 H1. unfold py_round.
  destruct (float64_unit q H0 H1) as [Hx0 Hx1]. set (x := float64 q) in *.
  set (p := (10 ^ Z.of_nat n)%Z).
  assert (Hp : (0 < p)%Z) by (apply Z.pow_pos_nonneg; lia).
  assert (Hpq : (0 < inject_Z p)%Q).
  { change 0%Q with (inject_Z 0). by rewrite <- Zlt_Qlt. }
  assert (Hlo : (0 ≤ round_half_even (x * inject_Z p))%Z).
  { apply round_half_even_ge. change (inject_Z 0) with 0%Q.
    apply Qmult_le_0_compat; [done|lra]. }
  assert (Hhi : (round_half_even (x * inject_Z p) ≤ p)%Z).
  { apply round_half_even_le.
    rewrite <- (Qmult_1_l (inject_Z p)) at 2.
    apply Qmult_le_compat_r; [done|lra]. }
  apply float64_unit.
  - apply Qle_shift_div_l; [done|]. rewrite Qmult_0_l.
    change 0%Q with (inject_Z 0). by rewrite <- Zle_Qle.
  - apply Qle_shift_div_r; [done|]. rewrite Qmult_1_l. by rewrite <- Zle_Qle.
Qed.

Lemma py_round_nonneg (q : Q) (n : nat) : (0 <= q)%Q → (0 <= py_round q n)%Q.
Proof.
  intros H0. unfold py_round.
  pose proof (float64_nonneg q H0) as Hx. set (x := float64 q) in *.
  set (p := (10 ^ Z.of_nat n)%Z).
  assert (Hp : (0 < p)%Z) by (apply Z.pow_pos_nonneg; lia).
  assert (Hpq : (0 < inject_Z p)%Q).
  { change 0%Q with (inject_Z 0). by rewrite <- Zlt_Qlt. }
  apply float64_nonneg.
  apply Qle_shift_div_l; [done|]. rewrite Qmult_0_l.
  change 0%Q with (inject_Z 0). rewrite <- Zle_Qle.
  apply round_half_even_ge. change (inject_Z 0) with 0%Q.
  apply Qmult_le_0_compat; [done|lra].
Qed.

Lemma py_round_0 (n : nat) : (py_round 0 n == 0)%Q.
Proof.
  unfold py_round. change (float64 0) with 0%Q.
  rewrite (round_half_even_proper _ 0%Q) by ring.
  change (round_half_even 0) with 0%Z.
  rewrite (float64_proper _ 0%Q); [done|].
  unfold Qdiv. ring.
Qed.

Lemma py_round_1_6 : (py_round 1 6 == 1)%Q.
Proof. vm_compute. reflexivity. Qed.

(** ** Jaccard similarity *)

Lemma of_int_le (a b : nat) : a ≤ b → (of_int a <= of_int b)%Q.
Proof. intros H. unfold of_int. rewrite <- Zle_Qle. lia. Qed.

Lemma of_int_pos (a : nat) : 0 < a → (0 < of_int a)%Q.
Proof. intros H. unfold of_int. change 0%Q with (inject_Z 0). rewrite <- Zlt_Qlt. lia. Qed.

Lemma jaccard_of_sets (a b : list text) :
  jaccard_similarity a b =
  let s1 : gset text := list_to_set a in
  let s2 : gset text := list_to_set b in
  if decide (s1 ∪ s2 = ∅) then 0%Q
  else (of_int (size (s1 ∩ s2)) / of_int (size (s1 ∪ s2)))%Q.
Proof.
  unfold jaccard_similarity. simpl.
  destruct (decide (_ ∪ _ = ∅)) as [He|Hne].
  - rewrite bool_decide_eq_false_2; [done|]. by intros H.
  - by rewrite bool_decide_eq_true_2.
Qed.

(** C10. For all token collections [a] and [b], the similarity of [a]
    and [b] is that of [b] and [a], and it lies between 0 and 1. *)
Theorem jaccard_symmetric_bounded (a b : list text) :
  jaccard_similarity a b = jaccard_similarity b a ∧
  (0 <= jaccard_similarity a b)%Q ∧ (jaccard_similarity a b <= 1)%Q.
Proof.
  split.
  - rewrite !jaccard_of_sets. simpl.
    generalize (list_to_set a : gset text) (list_to_set b : gset text).
    intros s1 s2.
    assert (Hi : s2 ∩ s1 = s1 ∩ s2) by set_solver.
    assert (Hu : s2 ∪ s1 = s1 ∪ s2) by set_solver.
    by rewrite Hi, Hu.
  - rewrite jaccard_of_sets. simpl.
    generalize (list_to_set a : gset text) (list_to_set b : gset text).
    intros s1 s2.
    destruct (decide (s1 ∪ s2 = ∅)) as [He|Hne]; [done|].
    assert (Hpos : 0 < size (s1 ∪ s2)).
    { apply Nat.neq_0_lt_0. apply size_non_empty_iff. by intros ?%leibniz_equiv. }
    assert (Hle : size (s1 ∩ s2) ≤ size (s1 ∪ s2)).
    { apply subseteq_size. set_solver. }
    split.
    + apply Qle_shift_div_l; [by apply of_int_pos|].
      rewrite Qmult_0_l. apply (of_int_le 0). lia.
    + apply Qle_shift_div_r; [by apply of_int_pos|].
      rewrite Qmult_1_l. by apply of_int_le.
Qed.

(** ** The loop over the files *)

Section AnalyzerFacts.
Variable U : chartab.
Import Main.

Lemma ingested_nil v : ingested U v [] = v.
Proof.
  destruct v. unfold ingested. simpl. by rewrite !app_nil_r, Nat.add_0_r.
Qed.

Lemma ingested_cons v f files :
  ingested U v (f :: files) = ingested U (ingested U v [f]) files.
Proof.
  unfold ingested. simpl. rewrite !app_nil_r.
  f_equal; rewrite <- ?app_assoc; try done. lia.
Qed.

Lemma ingest_one_loadable v f :
  loadable f.2 = true → ingest_one U v f = Ok (ingested U v [f]).
Proof.
  destruct f as [fn [| |[[txt|]|]]]; try done; intros _;
    unfold ingest_one, ingested, doc_word_set, doc_sentence_mean,
      doc_word_mean, doc_tokens; simpl; by rewrite ?app_nil_r, ?Nat.add_0_r.
Qed.

Lemma ingest_one_raises v f :
  loadable f.2 = false → ∃ e, ingest_one U v f = Raise e.
Proof.
  destruct f as [fn [| |[[txt|]|]]]; try done; intros _;
    unfold ingest_one; simpl; eauto.
Qed.

Lemma ingest_loadable files v :
  forallb (λ f, loadable f.2) files = true →
  ingest U v files = Ok (ingested U v files).
Proof.
  revert v. induction files as [|f files IH]; intros v; simpl.
  - by rewrite ingested_nil.
  - intros [Hf Hfiles]%andb_prop.
    rewrite ingest_one_loadable by done. rewrite IH by done.
    by rewrite <- ingested_cons.
Qed.

Lemma ingest_raises files v :
  forallb (λ f, loadable f.2) files = false → ∃ e, ingest U v files = Raise e.
Proof.
  revert v. induction files as [|f files IH]; intros v; simpl; [done|].
  destruct (loadable f.2) eqn:Hf; simpl.
  - intros Hfiles. rewrite ingest_one_loadable by done. by apply IH.
  - intros _. destruct (ingest_one_raises v f Hf) as [e ->]. eauto.
Qed.

(** A run of the analysis ends with a report exactly when every record
    of the listing is loadable, and the report is then built from the
    variables [ingested vars0 files]. *)
Lemma analyze_Ok now files r :
  analyze U now files = Ok r →
  forallb (λ f, loadable f.2) files = true ∧
  r = build_report U now (length files) (ingested U vars0 files).
Proof.
  unfold analyze. destruct (forallb (λ f, loadable f.2) files) eqn:Hall.
  - rewrite ingest_loadable by done. by intros [= <-].
  - destruct (ingest_raises files vars0 Hall) as [e ->]. done.
Qed.

Lemma analyze_loadable now files :
  forallb (λ f, loadable f.2) files = true →
  analyze U now files = Ok (build_report U now (length files) (ingested U vars0 files)).
Proof. intros H. unfold analyze. by rewrite ingest_loadable. Qed.

Lemma analyze_raises now files :
  forallb (λ f, loadable f.2) files = false → ∃ e, analyze U now files = Raise e.
Proof.
  intros H. unfold analyze. destruct (ingest_raises files vars0 H) as [e ->]. eauto.
Qed.

End AnalyzerFacts.

(** ** The report *)

Section ReportFacts.
Variable U : chartab.
Import Main.

Lemma length_concat_sum {A} (ls : list (list A)) :
  length (concat ls) = sum_list (map length ls).
Proof.
  induction ls as [|l ls IH]; simpl; [done|]. by rewrite length_app, IH.
Qed.

Lemma size_list_to_set_le (l : list text) :
  size (list_to_set l : gset text) ≤ length l.
Proof.
  induction l as [|x l IH]; [by rewrite list_to_set_nil, size_empty|].
  rewrite list_to_set_cons, size_union_alt, size_singleton. simpl length.
  assert (size (list_to_set l ∖ {[x]} : gset text) ≤ size (list_to_set l : gset text)).
  { apply subseteq_size. set_solver. }
  lia.
Qed.

Lemma list_to_set_concat_union (f : text → text) (ls : list (list text)) :
  (list_to_set (map f (concat ls)) : gset text) =
  ⋃ (map (λ l, list_to_set (map f l)) ls).
Proof.
  induction ls as [|l ls IH]; simpl; [done|].
  by rewrite map_app, list_to_set_app_L, IH.
Qed.

Lemma ingested_stream files :
  map (str_lower U) (all_tokens (ingested U vars0 files)) = corpus_stream U files.
Proof. done. Qed.

Lemma ingested_total files :
  total_words (ingested U vars0 files) = length (corpus_stream U files).
Proof.
  unfold corpus_stream. simpl. rewrite length_map, length_concat_sum.
  by rewrite map_map.
Qed.

(** C5. For every corpus that is ingested, [total_words] is the sum over
    the documents of the number of tokens of their text, [unique_words]
    is the number of elements of the union of the documents' lower-cased
    token sets, and [unique_words] is at most [total_words]. *)
Theorem word_totals (now : text) (files : list (text * record)) (r : Report.t) :
  analyze U now files = Ok r →
  Report.total_words r =
    sum_list (map (λ f, length (Tokenizer.tokenize U (doc_text f.2))) files) ∧
  Report.unique_words r = size (⋃ (map (doc_word_set U) files)) ∧
  Report.unique_words r ≤ Report.total_words r.
Proof.
  intros [_ ->]%analyze_Ok. simpl. split; [done|]. split.
  - unfold doc_word_set. rewrite list_to_set_concat_union. by rewrite map_map.
  - etrans; [apply size_list_to_set_le|].
    rewrite length_map, length_concat_sum. by rewrite map_map.
Qed.

(** C1, as the code has it. For every corpus that is ingested,
    [top_100_words] has at most 100 entries with distinct words; each
    entry carries the number of occurrences of its word in the lower-cased
    token stream of the corpus and frequency = count / total_words rounded
    to 6 decimal places, as [round] rounds the float of the quotient; the
    entries are ranked by descending count, and
    entries of equal count stand in the order in which their words first
    occur in the stream; a word of the stream that is not listed ranks
    after every listed one, and the list is then full; when total_words
    is 0 the list is empty. *)
Theorem top_100_words_first_seen
    (now : text) (files : list (text * record)) (r : Report.t) :
  analyze U now files = Ok r →
  let stream := corpus_stream U files in
  let top := Report.top_100_words r in
  length top ≤ 100 ∧
  NoDup (map word top) ∧
  (∀ e, e ∈ top →
        count e = occ (word e) stream ∧ 0 < count e ∧
        frequency e =
          py_round (of_int (count e) / of_int (Report.total_words r)) 6) ∧
  StronglySorted
    (λ a b, ranked_first_seen stream (entry_key a) (entry_key b)) top ∧
  (∀ w, w ∈ stream → w ∉ map word top →
        length top = 100 ∧
        ∀ e, e ∈ top → ranked_first_seen stream (entry_key e) (w, occ w stream)) ∧
  (Report.total_words r = 0 → top = []).
Proof.
  intros [_ ->]%analyze_Ok stream top. subst top. unfold build_report.
  cbn [Report.top_100_words Report.total_words].
  rewrite ingested_stream. fold stream.
  rewrite ingested_total. fold stream.
  destruct (most_common_spec 100 stream) as (Hlen & Hnd & Hcnt & Hsort & Htop).
  set (tc := Counter.most_common 100 (Counter.of_list stream)) in *.
  split; [by rewrite length_map|]. split; [|split; [|split; [|split]]].
  - rewrite map_map. simpl. done.
  - intros e (wc & -> & Hwc)%list_elem_of_fmap. simpl.
    destruct (Hcnt wc Hwc) as [Hocc Hpos]. split; [done|]. split; [done|].
    rewrite bool_decide_eq_true_2; [done|].
    intros Hz. apply nil_length_inv in Hz.
    rewrite Hocc, Hz in Hpos. unfold occ in Hpos. simpl in Hpos. lia.
  - apply StronglySorted_map. simpl.
    revert Hsort. apply StronglySorted_impl_in. by intros [] [].
  - intros w Hw Hnot. rewrite map_map in Hnot. simpl in Hnot.
    destruct (Htop w Hw Hnot) as [Hfull Hrank].
    split; [by rewrite length_map|].
    intros e (wc & -> & Hwc)%list_elem_of_fmap. simpl.
    specialize (Hrank wc Hwc). by destruct wc.
  - intros Hz%nil_length_inv. subst tc. by rewrite Hz.
Qed.

Lemma ngrams_length (stream : list text) (n : nat) :
  length (ngrams stream n) = length stream + 1 - n.
Proof. unfold ngrams. rewrite length_map, length_seq. lia. Qed.

Lemma ngrams_lookup (stream : list text) (n i : nat) :
  i < length (ngrams stream n) →
  ngrams stream n !! i = Some (join [SPACE] (slice stream i (i + n))) ∧
  length (slice stream i (i + n)) = n.
Proof.
  intros Hi. pose proof (ngrams_length stream n) as Hlen. split.
  - unfold ngrams in *. rewrite length_map, length_seq in Hi.
    change (map ?f ?l) with (f <$> l). rewrite list_lookup_fmap.
    by rewrite lookup_seq_lt.
  - unfold slice. rewrite length_take, length_drop. lia.
Qed.

Lemma ngram_entries_spec (n : nat) (stream : list text) :
  top_ngram_table n stream (ngram_entries n stream).
Proof.
  unfold top_ngram_table, ngram_entries.
  destruct (most_common_spec 100 (ngrams stream n))
    as (Hlen & Hnd & Hcnt & Hsort & Htop).
  set (tc := Counter.most_common 100 (Counter.of_list (ngrams stream n))) in *.
  split; [apply ngrams_length|]. split; [apply ngrams_lookup|].
  split; [by rewrite length_map|]. split; [|split; [|split]].
  - rewrite map_map. simpl. done.
  - intros e (kv & -> & Hkv)%list_elem_of_fmap. simpl. by apply Hcnt.
  - apply StronglySorted_map. simpl.
    revert Hsort. apply StronglySorted_impl_in.
    intros a b _ _. unfold ranked_first_seen. lia.
  - intros g Hg Hnot. rewrite map_map in Hnot. simpl in Hnot.
    destruct (Htop g Hg Hnot) as [Hfull Hrank].
    split; [by rewrite length_map|].
    intros e (kv & -> & Hkv)%list_elem_of_fmap. simpl.
    specialize (Hrank kv Hkv). unfold ranked_first_seen in Hrank. simpl in Hrank.
    lia.
Qed.

(** C4. For every corpus that is ingested, the bigram table and the
    trigram table are built from one stream, the lower-cased tokens of
    all documents concatenated in ingestion order: the n-grams are the
    space-joined runs of n consecutive tokens of that stream, across
    document boundaries, their occurrences are counted, and the at most
    100 most frequent are listed by descending count. *)
Theorem ngram_tables (now : text) (files : list (text * record)) (r : Report.t) :
  analyze U now files = Ok r →
  corpus_stream U files =
    map (str_lower U)
        (concat (map (λ f, Tokenizer.tokenize U (doc_text f.2)) files)) ∧
  top_ngram_table 2 (corpus_stream U files) (Report.top_bigrams r) ∧
  top_ngram_table 3 (corpus_stream U files) (Report.top_trigrams r).
Proof.
  intros [_ ->]%analyze_Ok. split; [done|].
  unfold build_report. cbn [Report.top_bigrams Report.top_trigrams].
  rewrite ingested_stream. split; apply ngram_entries_spec.
Qed.

(** *** Pairs of documents *)

Lemma bind_lookup_map {A B} (f : A → B) (l : list A) :
  seq 0 (length l) ≫= (λ j, match l !! j with Some b => [f b] | None => [] end)
  = map f l.
Proof.
  induction l as [|a l IH] using rev_ind; [done|].
  rewrite length_app, Nat.add_comm. simpl length.
  rewrite seq_S, bind_app, map_app. simpl. f_equal.
  - rewrite <- IH. apply Forall_bind_ext, Forall_forall.
    intros j [_ Hj]%elem_of_seq. by rewrite lookup_app_l by lia.
  - rewrite app_nil_r. by rewrite list_lookup_middle.
Qed.

Lemma combinations2_by_index {A} (l : list A) :
  combinations2 l = pairs_by_index l.
Proof.
  induction l as [|x xs IH]; [done|].
  unfold pairs_by_index. simpl length. rewrite <- cons_seq, bind_cons.
  simpl combinations2. f_equal.
  - replace (S (length xs) - 1) with (length xs) by lia.
    rewrite <- fmap_S_seq, list_fmap_bind.
    rewrite <- (bind_lookup_map (pair x)). done.
  - rewrite IH. unfold pairs_by_index.
    rewrite <- fmap_S_seq, list_fmap_bind.
    apply list_bind_ext; [|done]. intros i. simpl.
    rewrite <- (fmap_S_seq (S i)), list_fmap_bind. done.
Qed.

Lemma combinations2_elem_of {A} (l : list A) (p : A * A) :
  p ∈ combinations2 l → p.1 ∈ l ∧ p.2 ∈ l.
Proof.
  induction l as [|x xs IH]; simpl; [by intros ?%elem_of_nil|].
  rewrite elem_of_app, list_elem_of_fmap, !elem_of_cons.
  intros [(b & -> & Hb)|Hp]; simpl; [by auto|].
  destruct (IH Hp). auto.
Qed.

Lemma combinations2_length {A} (l : list A) :
  2 * length (combinations2 l) = length l * (length l - 1).
Proof.
  induction l as [|x xs IH]; simpl; [done|].
  rewrite length_app, length_map. rewrite Nat.sub_0_r.
  destruct xs as [|y ys]; simpl in *; [done|]. nia.
Qed.

Section WordSets.
Context (g : text * record → gset text).

Lemma word_sets_other (files : list (text * record))
    (m : gmap text (gset text)) (k : text) :
  k ∉ map fst files →
  foldl (λ m f, <[f.1 := g f]> m) m files !! k = m !! k.
Proof.
  revert m. induction files as [|f files IH]; intros m; simpl; [done|].
  rewrite not_elem_of_cons. intros [Hne Hk].
  rewrite IH by done. by rewrite lookup_insert_ne.
Qed.

Lemma word_sets_lookup (files : list (text * record))
    (m : gmap text (gset text)) (f : text * record) :
  NoDup (map fst files) → f ∈ files →
  foldl (λ m f, <[f.1 := g f]> m) m files !! f.1 = Some (g f).
Proof.
  revert m. induction files as [|f0 files IH]; intros m; simpl.
  - by intros _ ?%elem_of_nil.
  - intros [Hf0 Hnd]%NoDup_cons [->|Hf]%elem_of_cons.
    + rewrite word_sets_other by done. by rewrite lookup_insert_eq.
    + by apply IH.
Qed.

End WordSets.

(** C3. For every ingested listing of [N] documents with distinct names,
    [document_similarity] has one record for each pair of documents
    [(i, j)] with [i] before [j], in the order of the combinations (all
    pairs of the first document, then of the second, and so on), that is
    [N (N - 1) / 2] records; the similarity of a record is the size of the
    intersection of the two lower-cased token sets over the size of their
    union, 0 when the union is empty, rounded to 6 decimal places as
    [round] rounds the float of the quotient. *)
Theorem document_similarity_pairs
    (now : text) (files : list (text * record)) (r : Report.t) :
  analyze U now files = Ok r →
  NoDup (map fst files) →
  Report.document_similarity r =
    map (λ p, {| doc1 := p.1.1; doc2 := p.2.1;
                 similarity :=
                   py_round (set_similarity (doc_word_set U p.1)
                                            (doc_word_set U p.2)) 6 |})
        (pairs_by_index files) ∧
  2 * length (Report.document_similarity r) = length files * (length files - 1).
Proof.
  intros [_ ->]%analyze_Ok Hnd.
  unfold build_report. cbn [Report.document_similarity].
  cbn [docs doc_word_sets ingested vars0]. rewrite app_nil_l. split.
  - rewrite <- combinations2_by_index.
    apply map_ext_in. intros p Hp%list_elem_of_In.
    apply combinations2_elem_of in Hp as [Hp1 Hp2].
    unfold get_words.
    rewrite !(word_sets_lookup (doc_word_set U)) by done.
    rewrite jaccard_of_sets. simpl.
    by rewrite !list_to_set_elements_L.
  - rewrite length_map. apply combinations2_length.
Qed.

(** *** Readability *)

Lemma ingested_sentence_means files :
  doc_avg_sentence_len (ingested U vars0 files) = map (doc_sentence_mean U) files.
Proof. done. Qed.

Lemma ingested_word_means files :
  doc_avg_word_len (ingested U vars0 files) = map (doc_word_mean U) files.
Proof. done. Qed.


(** *** Records that are not well formed *)

Lemma combinations2_map {A B} (h : A → B) (l : list A) :
  combinations2 (map h l) = map (λ p, (h p.1, h p.2)) (combinations2 l).
Proof.
  induction l as [|x xs IH]; simpl; [done|].
  by rewrite map_app, IH, !map_map.
Qed.

Lemma absent_as_empty_loadable files :
  forallb (λ f, loadable f.2) (map absent_as_empty files) =
  forallb (λ f, loadable f.2) files.
Proof.
  induction files as [|[fn [| |[[txt|]|]]] files IH]; simpl; by rewrite ?IH.
Qed.

Lemma absent_as_empty_text f : doc_text (absent_as_empty f).2 = doc_text f.2.
Proof. by destruct f as [fn [| |[[txt|]|]]]. Qed.

Lemma absent_as_empty_report now n files :
  build_report U now n (ingested U vars0 (map absent_as_empty files)) =
  build_report U now n (ingested U vars0 files).
Proof.
  assert (Htok : ∀ f, doc_tokens U (absent_as_empty f) = doc_tokens U f).
  { intros f. unfold doc_tokens. by rewrite absent_as_empty_text. }
  assert (Hset : ∀ f, doc_word_set U (absent_as_empty f) = doc_word_set U f).
  { intros f. unfold doc_word_set. by rewrite Htok. }
  assert (Hsm : ∀ f, doc_sentence_mean U (absent_as_empty f) = doc_sentence_mean U f).
  { intros f. unfold doc_sentence_mean. by rewrite absent_as_empty_text. }
  assert (Hwm : ∀ f, doc_word_mean U (absent_as_empty f) = doc_word_mean U f).
  { intros f. unfold doc_word_mean. by rewrite Htok. }
  assert (Hsets : ∀ m : gmap text (gset text),
    foldl (λ m f, <[f.1 := doc_word_set U f]> m) m (map absent_as_empty files) =
    foldl (λ m f, <[f.1 := doc_word_set U f]> m) m files).
  { induction files as [|f files IH]; intros m; simpl; [done|].
    by rewrite Hset, IH. }
  unfold build_report, ingested.
  cbn [docs all_tokens doc_word_sets total_words doc_avg_sentence_len
       doc_avg_word_len vars0].
  rewrite !app_nil_l, !map_map, Hsets, combinations2_map, map_map.
  rewrite (map_ext _ _ Htok), (map_ext _ _ Hsm), (map_ext _ _ Hwm).
  assert (Hlen :
    map (λ f, length (doc_tokens U (absent_as_empty f))) files =
    map (λ f, length (doc_tokens U f)) files).
  { apply map_ext. intros f. by rewrite Htok. }
  by rewrite Hlen.
Qed.

Lemma ingest_error_absent files v v' err :
  ingest U v files = Raise err →
  ingest U v' (map absent_as_empty files) = Raise err.
Proof.
  revert v v'. induction files as [|[fn rec] files IH]; intros v v'; [done|].
  destruct rec as [| |[[txt|]|]]; simpl; unfold ingest_one; simpl;
    try done; apply IH.
Qed.

(** C2, as the code has it. A listing with a record that cannot be
    loaded, that is not a JSON object, or whose text is not a string ends
    the run with the exception, after the waiting and before any write:
    neither the report nor the completion marker is written.  A record
    whose text field is absent is not skipped: the analysis of the listing
    is the analysis of the listing in which that record has the empty
    text, and no warning is among the events of a run. *)
Theorem malformed_record_raises_absent_text_is_empty (e : env) :
  (forallb (λ f, loadable f.2) (listing e) = false →
   ∃ err, main U e = (replicate (polls e) Waited, Raise err)) ∧
  analyze U (report_time e) (listing e) =
    analyze U (report_time e) (map absent_as_empty (listing e)).
Proof.
  split.
  - intros Hbad. destruct (analyze_raises U (report_time e) _ Hbad) as [err Herr].
    exists err. unfold main, wait_for_processor, lift, mbind, run_bind.
    rewrite Herr. simpl. by rewrite app_nil_r.
  - destruct (forallb (λ f, loadable f.2) (listing e)) eqn:Hall.
    + rewrite !analyze_loadable by (by rewrite ?absent_as_empty_loadable).
      by rewrite length_map, absent_as_empty_report.
    + destruct (analyze_raises U (report_time e) _ Hall) as [err Herr].
      rewrite Herr. unfold analyze in *.
      destruct (ingest U vars0 (listing e)) eqn:Hing; [done|].
      injection Herr as ->.
      by rewrite (ingest_error_absent _ _ vars0 _ Hing).
Qed.

(** *** The empty corpus *)

(** C8. With no document in the listing the analysis raises nothing and
    gives a report with every field present: documents_processed,
    total_words and unique_words are 0, top_100_words,
    document_similarity and both n-gram tables are empty, and the three
    readability values, complexity_score among them, are 0; when both
    writes succeed, the run writes this report and the marker and ends
    without an exception. *)
Theorem zero_documents_report (now marker : text) (waits : nat) :
  ∃ r, analyze U now [] = Ok r ∧
       Report.processing_timestamp r = now ∧
       Report.documents_processed r = 0 ∧
       Report.total_words r = 0 ∧
       Report.unique_words r = 0 ∧
       Report.top_100_words r = [] ∧
       Report.document_similarity r = [] ∧
       Report.top_bigrams r = [] ∧
       Report.top_trigrams r = [] ∧
       (avg_sentence_length (Report.readability r) == 0)%Q ∧
       (avg_word_length (Report.readability r) == 0)%Q ∧
       (complexity_score (Report.readability r) == 0)%Q ∧
       main U {| polls := waits; listing := []; report_time := now;
                 marker_time := marker; report_write_ok := true;
                 marker_write_ok := true |} =
         (replicate waits Waited ++
            [ReportWritten r; MarkerWritten marker; PrintedComplete], Ok ()).
Proof.
  eexists. split; [reflexivity|].
  repeat (split; [reflexivity|]).
  unfold main, wait_for_processor, lift, write_report, write_marker,
    mbind, run_bind. simpl. done.
Qed.

(** *** The two writes *)

Lemma main_cases (e : env) :
  main U e =
  match analyze U (report_time e) (listing e) with
  | Ok r =>
      if report_write_ok e then
        if marker_write_ok e then
          (replicate (polls e) Waited ++
             [ReportWritten r; MarkerWritten (marker_time e); PrintedComplete],
           Ok ())
        else (replicate (polls e) Waited ++ [ReportWritten r],
              Raise MarkerWriteError)
      else (replicate (polls e) Waited, Raise ReportWriteError)
  | Raise err => (replicate (polls e) Waited, Raise err)
  end.
Proof.
  unfold main, wait_for_processor, lift, write_report, write_marker,
    mbind, run_bind.
  destruct (analyze U (report_time e) (listing e)) as [r|err]; simpl;
    [|by rewrite app_nil_r].
  destruct (report_write_ok e), (marker_write_ok e); simpl;
    by rewrite ?app_nil_r.
Qed.

(** C9. In every run, a marker write among the events comes directly
    after the completed write of the report of the listing, and only
    waiting comes before the two; when the write of the report fails, the
    run ends with an exception, which is the write error when the analysis
    gave a report, and nothing is written: the events are the waits. *)
Theorem marker_only_after_report (e : env) :
  (∀ t, MarkerWritten t ∈ (main U e).1 →
        ∃ r pre post,
          (main U e).1 = pre ++ ReportWritten r :: MarkerWritten t :: post ∧
          (∀ ev, ev ∈ pre → ev = Waited) ∧
          analyze U (report_time e) (listing e) = Ok r) ∧
  (report_write_ok e = false →
        (∃ err, (main U e).2 = Raise err) ∧
        (∀ r, analyze U (report_time e) (listing e) = Ok r →
              (main U e).2 = Raise ReportWriteError) ∧
        ∀ ev, ev ∈ (main U e).1 → ev = Waited).
Proof.
  rewrite main_cases. split.
  - intros t.
    destruct (analyze U (report_time e) (listing e)) as [r|err];
      [destruct (report_write_ok e); [destruct (marker_write_ok e)|]|];
      simpl; rewrite ?elem_of_app, ?elem_of_cons, ?elem_of_nil;
      intros Hin;
      try (destruct Hin as [[? Hin]%elem_of_replicate|Hin]; [done|]);
      try (by apply elem_of_replicate in Hin as [? _]).
    + destruct Hin as [?|[[= <-]|[?|[]]]]; try done.
      exists r, (replicate (polls e) Waited), [PrintedComplete].
      split; [done|]. split; [|done].
      by intros ev [? _]%elem_of_replicate.
    + destruct Hin as [?|[]]; done.
  - intros ->.
    destruct (analyze U (report_time e) (listing e)) as [r|err]; simpl.
    + split; [eauto|]. split; [done|]. by intros ev [? _]%elem_of_replicate.
    + split; [eauto|]. split; [done|]. by intros ev [? _]%elem_of_replicate.
Qed.

End ReportFacts.

(** ** The specification's scenario and other concrete runs *)

Example tokenize_scenario_doc1 :
  Tokenizer.tokenize ascii_tab (py "Cats chase mice. Mice run fast.") =
  [py "Cats"; py "chase"; py "mice"; py "Mice"; py "run"; py "fast"].
Proof. vm_compute. reflexivity. Qed.

Example tokenize_scenario_doc2 :
  Tokenizer.tokenize ascii_tab (py "Dogs chase cats.") =
  [py "Dogs"; py "chase"; py "cats"].
Proof. vm_compute. reflexivity. Qed.

(** Hyphens at the ends of a run are not part of the token; hyphens and
    underscores inside are. *)
Example tokenize_hyphens :
  Tokenizer.tokenize ascii_tab (py "-well-known- x--y _a -- b_") =
  [py "well-known"; py "x--y"; py "_a"; py "b_"].
Proof. vm_compute. reflexivity. Qed.

Example scenario_analyzed :
  Main.analyze ascii_tab now0 scenario = Ok (report_of scenario).
Proof. vm_compute. reflexivity. Qed.

Example scenario_totals :
  Report.total_words (report_of scenario) = 9 ∧
  Report.unique_words (report_of scenario) = 6 ∧
  map similarity (Report.document_similarity (report_of scenario)) =
    [float64 (333333 # 1000000)].
Proof. vm_compute. done. Qed.

(** A bigram across the boundary of the two documents. *)
Example scenario_bigram_across_documents :
  py "fast dogs" ∈ map ngram (Report.top_bigrams (report_of scenario)).
Proof. apply list_elem_of_In. vm_compute. tauto. Qed.

Example split_marks_pieces :
  re_split_marks (py "a. b!?") = [py "a"; py " b"; py ""] ∧
  sentences ascii_tab (py "a. b!? . ") = [py "a"; py "b"].
Proof. vm_compute. done. Qed.

(** The doubles nearest to 0.1 and to 1/3. *)
Example float64_examples :
  (float64 (1 # 10) == 3602879701896397 # 36028797018963968)%Q ∧
  (float64 (1 # 3) == 6004799503160661 # 18014398509481984)%Q ∧
  (float64 (1 # 4) == 1 # 4)%Q ∧ (float64 3 == 3)%Q.
Proof. vm_compute. done. Qed.

(** [round] gives the double nearest to the decimal; a half that is a
    double is rounded to even; 1/640 and 87/80 are no doubles, and the
    doubles nearest to them lie above 0.0015625 and below 1.0875. *)
Example py_round_examples :
  py_round (1 # 3) 6 = float64 (333333 # 1000000) ∧
  py_round (2 # 3) 6 = float64 (666667 # 1000000) ∧
  (py_round (5 # 2) 0 == 2)%Q ∧ (py_round (7 # 2) 0 == 4)%Q ∧
  py_round (1 # 640) 6 = float64 (1563 # 1000000) ∧
  py_round (639 # 640) 6 = float64 (998437 # 1000000) ∧
  py_round (87 # 80) 3 = float64 (1087 # 1000).
Proof. vm_compute. done. Qed.

(** Quotients that are decimal ties: the report holds what [round] makes
    of the doubles, 0.998437 and 0.001563 for 639/640 and 1/640, and
    1.087 for 87/80. *)
Example frequencies_at_decimal_ties :
  Main.analyze ascii_tab now0 frequency_tie_docs =
    Ok (report_of frequency_tie_docs) ∧
  map (λ e, (entry_key e, frequency e))
      (Report.top_100_words (report_of frequency_tie_docs)) =
    [((py "a", 639), float64 (998437 # 1000000));
     ((py "b", 1), float64 (1563 # 1000000))].
Proof. vm_compute. done. Qed.

Example word_length_at_decimal_tie :
  Main.analyze ascii_tab now0 word_length_tie_docs =
    Ok (report_of word_length_tie_docs) ∧
  avg ascii_tab (map (doc_word_mean ascii_tab) word_length_tie_docs) =
    float64 (87 # 80) ∧
  avg_word_length (Report.readability (report_of word_length_tie_docs)) =
    float64 (1087 # 1000).
Proof. vm_compute. done. Qed.

(** *** Where the code departs from the specification *)

(** C1 as the specification words it fails: for the text "b a" both
    words occur once and the list has "b" before "a". *)
Lemma top_100_words_not_lexicographic :
  Main.analyze ascii_tab now0 tie_docs = Ok (report_of tie_docs) ∧
  map entry_key (Report.top_100_words (report_of tie_docs)) =
    [(py "b", 1); (py "a", 1)] ∧
  ¬ StronglySorted
      (λ a b, ranked_lexicographic (entry_key a) (entry_key b))
      (Report.top_100_words (report_of tie_docs)).
Proof.
  split; [vm_compute; reflexivity|]. split; [vm_compute; reflexivity|].
  intros Hs. apply StronglySorted_inv in Hs as [_ Hall].
  apply Forall_inv in Hall. revert Hall. vm_compute.
  intros [Hlt|[_ Hlex]]; [lia|done].
Qed.

(** C2 as the specification words it fails: a file that is not valid
    JSON ends the run with the exception and nothing is written; a record
    without text is not skipped, it is counted and paired like any
    document. *)
Lemma malformed_record_not_skipped :
  Main.main ascii_tab (env_of unreadable_docs true true) =
    ([Waited], Raise LoadError) ∧
  Main.analyze ascii_tab now0 textless_docs = Ok (report_of textless_docs) ∧
  Report.documents_processed (report_of textless_docs) = 2 ∧
  map (λ s, (doc1 s, doc2 s))
      (Report.document_similarity (report_of textless_docs)) =
    [(py "a.json", py "b.json")] ∧
  report_of textless_docs ≠ report_of [doc "a.json" "x y"].
Proof.
  split; [vm_compute; reflexivity|]. split; [vm_compute; reflexivity|].
  split; [vm_compute; reflexivity|]. split; [vm_compute; reflexivity|].
  intros Heq. apply (f_equal Report.documents_processed) in Heq.
  revert Heq. vm_compute. done.
Qed.


(** *** The theorems at concrete inputs *)

Lemma word_totals_witness :
  Main.analyze ascii_tab now0 scenario = Ok (report_of scenario) ∧
  (Report.total_words (report_of scenario) =
     sum_list (map (λ f, length (Tokenizer.tokenize ascii_tab (doc_text f.2)))
                   scenario) ∧
   Report.unique_words (report_of scenario) =
     size (⋃ (map (doc_word_set ascii_tab) scenario)) ∧
   Report.unique_words (report_of scenario) ≤
     Report.total_words (report_of scenario)).
Proof.
  split; [vm_compute; reflexivity|].
  apply (word_totals ascii_tab now0 scenario). vm_compute. reflexivity.
Defined.

Lemma top_100_words_first_seen_witness :
  Main.analyze ascii_tab now0 tie_docs = Ok (report_of tie_docs) ∧
  StronglySorted
    (λ a b, ranked_first_seen (corpus_stream ascii_tab tie_docs)
              (entry_key a) (entry_key b))
    (Report.top_100_words (report_of tie_docs)).
Proof.
  split; [vm_compute; reflexivity|].
  apply (top_100_words_first_seen ascii_tab now0 tie_docs).
  vm_compute. reflexivity.
Defined.

Lemma ngram_tables_witness :
  Main.analyze ascii_tab now0 scenario = Ok (report_of scenario) ∧
  top_ngram_table 2 (corpus_stream ascii_tab scenario)
    (Report.top_bigrams (report_of scenario)).
Proof.
  split; [vm_compute; reflexivity|].
  destruct (ngram_tables ascii_tab now0 scenario (report_of scenario))
    as (_ & Hbigrams & _); [vm_compute; reflexivity|exact Hbigrams].
Defined.

Lemma document_similarity_pairs_witness :
  Main.analyze ascii_tab now0 scenario = Ok (report_of scenario) ∧
  NoDup (map fst scenario) ∧
  2 * length (Report.document_similarity (report_of scenario)) =
    length scenario * (length scenario - 1).
Proof.
  assert (Hnd : NoDup (map fst scenario)).
  { refine (bool_decide_unpack (NoDup (map fst scenario)) _).
    vm_compute. exact I. }
  split; [vm_compute; reflexivity|]. split; [exact Hnd|].
  apply (document_similarity_pairs ascii_tab now0 scenario);
    [vm_compute; reflexivity|exact Hnd].
Defined.


Lemma malformed_record_raises_witness :
  forallb (λ f, loadable f.2) unreadable_docs = false ∧
  ∃ err, Main.main ascii_tab (env_of unreadable_docs true true) =
           (replicate 1 Waited, Raise err).
Proof.
  split; [reflexivity|].
  apply (malformed_record_raises_absent_text_is_empty ascii_tab
           (env_of unreadable_docs true true)).
  reflexivity.
Defined.

Lemma marker_only_after_report_witness :
  report_write_ok (env_of scenario false true) = false ∧
  ∀ ev, ev ∈ (Main.main ascii_tab (env_of scenario false true)).1 → ev = Waited.
Proof.
  split; [reflexivity|].
  apply (marker_only_after_report ascii_tab (env_of scenario false true)).
  reflexivity.
Defined.

(** * Further properties of the analyzer *)

(** ** The shape of tokens *)

Section TokenShape.
Variable U : chartab.
Import Tokenizer.

Lemma word_at_class (s : text) (k : nat) :
  word_at U s k = true → class_at U s k = true.
Proof.
  unfold word_at, class_at, in_class. destruct (s !! k); [|done].
  by intros ->.
Qed.

Lemma word_at_length (s : text) (k : nat) :
  word_at U s k = true → k < length s.
Proof. intros H%word_at_class. by apply class_at_length in H. Qed.

(** The run of word characters around a word character: where it
    starts, nothing or a character that is not a word character comes
    before. *)
Lemma word_run_start (s : text) (k : nat) :
  word_at U s k = true →
  ∃ a, a ≤ k ∧ (∀ m, a ≤ m ≤ k → word_at U s m = true) ∧
       word_before U s a = false.
Proof.
  induction k as [|k IH]; intros Hk.
  - exists 0. split; [done|]. split; [|done].
    intros m Hm. by replace m with 0 by lia.
  - destruct (word_at U s k) eqn:Hprev.
    + destruct (IH eq_refl) as (a & Ha & Hrun & Hbefore).
      exists a. split; [lia|]. split; [|done].
      intros m Hm. destruct (decide (m = S k)) as [->|]; [done|].
      apply Hrun. lia.
    + exists (S k). split; [done|]. split; [|done].
      intros m Hm. by replace m with (S k) by lia.
Qed.

Lemma word_run_end (s : text) (k : nat) :
  word_at U s k = true →
  ∃ b, k < b ∧ (∀ m, k ≤ m < b → word_at U s m = true) ∧
       word_at U s b = false.
Proof.
  remember (length s - k) as n eqn:Hn. revert k Hn.
  induction n as [|n IH]; intros k Hn Hk.
  - apply word_at_length in Hk. lia.
  - destruct (word_at U s (S k)) eqn:Hnext.
    + pose proof (word_at_length _ _ Hk).
      destruct (IH (S k)) as (b & Hb & Hrun & Hafter); [lia|done|].
      exists b. split; [lia|]. split; [|done].
      intros m Hm. destruct (decide (m = k)) as [->|]; [done|].
      apply Hrun. lia.
    + exists (S k). split; [lia|]. split; [|done].
      intros m Hm. by replace m with k by lia.
Qed.

(** Around every word character there is a span. *)
Lemma word_span (s : text) (k : nat) :
  word_at U s k = true → ∃ a b, a ≤ k < b ∧ span U s a b.
Proof.
  intros Hk.
  destruct (word_run_start _ _ Hk) as (a & Ha & Hleft & Hbefore).
  destruct (word_run_end _ _ Hk) as (b & Hb & Hright & Hafter).
  assert (Hrun : ∀ m, a ≤ m < b → word_at U s m = true).
  { intros m Hm. destruct (decide (m ≤ k)); [apply Hleft|apply Hright]; lia. }
  exists a, b. split; [lia|]. split; [lia|].
  split; [|split; [|split]].
  - pose proof (word_at_length s (b - 1)) as Hlen.
    rewrite Hrun in Hlen by lia. specialize (Hlen eq_refl). lia.
  - intros m Hm. by apply word_at_class, Hrun.
  - unfold boundary. rewrite Hbefore, Hrun by lia. done.
  - unfold boundary. destruct b as [|b]; [lia|]. simpl.
    rewrite Hrun by lia. by rewrite Hafter.
Qed.

Lemma scan_nil_no_span (fuel : nat) (s : text) (p : nat) :
  scan U fuel s p = [] → length s ≤ fuel + p →
  ∀ i j, p ≤ i → ¬ span U s i j.
Proof.
  revert p. induction fuel as [|f IH]; intros p Hscan Hfuel i j Hi Hsp.
  - destruct Hsp as (? & ? & _). lia.
  - simpl in Hscan. destruct (match_at U s p) as [e|] eqn:Hm; [done|].
    destruct (decide (i = p)) as [->|].
    + by apply (match_at_None _ _ _ Hm j).
    + apply (IH (S p) Hscan) with i j; [lia|lia|done].
Qed.

Lemma scan_no_word (fuel : nat) (s : text) (p : nat) :
  (∀ k, word_at U s k = false) → scan U fuel s p = [].
Proof.
  intros Hno. revert p. induction fuel as [|f IH]; intros p; simpl; [done|].
  unfold match_at, boundary. rewrite Hno.
  destruct p as [|p]; simpl; [apply IH|]. rewrite Hno. apply IH.
Qed.

(** X1. A text has a token exactly when it has a word character: a text of
    punctuation, white space and hyphens only has no token. *)
Theorem tokenize_nil_iff (txt : text) :
  tokenize U txt = [] ↔ Forall (λ c, is_word U c = false) txt.
Proof.
  unfold tokenize, findall. split.
  - intros Hnil%fmap_nil_inv. apply Forall_lookup. intros k c Hc.
    destruct (is_word U c) eqn:Hw; [|done]. exfalso.
    assert (Hk : word_at U txt k = true) by (unfold word_at; by rewrite Hc).
    destruct (word_span _ _ Hk) as (a & b & _ & Hsp).
    apply (scan_nil_no_span _ _ _ Hnil) with a b; [lia|lia|done].
  - intros Hall. rewrite scan_no_word; [done|].
    intros k. unfold word_at. destruct (txt !! k) as [c|] eqn:Hc; [|done].
    rewrite Forall_lookup in Hall. by apply (Hall k).
Qed.

Lemma maximal_span_ends (s : text) (i j : nat) :
  maximal_span U s i j →
  word_at U s i = true ∧ word_at U s (j - 1) = true.
Proof.
  intros [(Hij & Hlen & Hcl & Hbi & Hbj) Hmax]. split.
  - destruct (word_at U s i) eqn:Hwi; [done|]. exfalso.
    unfold boundary in Hbi. rewrite Hwi in Hbi.
    destruct i as [|i0]; [done|]. simpl in Hbi.
    rewrite xorb_false_r in Hbi.
    destruct (word_run_start _ _ Hbi) as (a & Ha & Hrun & Hbefore).
    destruct (Hmax a j) as [Heq _]; [lia|done| |lia].
    split; [lia|]. split; [done|]. split; [|split; [|done]].
    + intros m Hm. destruct (decide (m ≤ i0)).
      * apply word_at_class, Hrun. lia.
      * apply Hcl. lia.
    + unfold boundary. rewrite Hbefore, Hrun by lia. done.
  - destruct j as [|j0]; [lia|]. simpl. rewrite Nat.sub_0_r.
    destruct (word_at U s j0) eqn:Hwj; [done|]. exfalso.
    unfold boundary in Hbj. simpl in Hbj. rewrite Hwj in Hbj. simpl in Hbj.
    destruct (word_run_end _ _ Hbj) as (b & Hb & Hrun & Hafter).
    destruct (Hmax i b) as [_ Heq]; [lia|lia| |lia].
    split; [lia|]. split; [|split; [|split; [done|]]].
    + pose proof (word_at_length s (b - 1)) as Hl.
      rewrite Hrun in Hl by lia. specialize (Hl eq_refl). lia.
    + intros m Hm. destruct (decide (m < S j0)).
      * apply Hcl. lia.
      * apply word_at_class, Hrun. lia.
    + unfold boundary. destruct b as [|b]; [lia|]. simpl.
      rewrite Hrun by lia. by rewrite Hafter.
Qed.

Lemma lookup_slice (s : text) (i j m : nat) :
  j ≤ length s → m < j - i → slice s i j !! m = s !! (i + m).
Proof.
  intros Hj Hm. unfold slice. rewrite lookup_take_lt by done.
  by rewrite lookup_drop.
Qed.

Lemma length_slice (s : text) (i j : nat) :
  j ≤ length s → length (slice s i j) = j - i.
Proof. intros Hj. unfold slice. rewrite length_take, length_drop. lia. Qed.

(** X2. Every token is non-empty, is made of word characters and hyphens
    only, and begins and ends with a word character: a hyphen at either
    end of a run is never part of the token. *)
Theorem token_shape (txt t : text) :
  t ∈ tokenize U txt →
  t ≠ [] ∧
  Forall (λ c, in_class U c = true) t ∧
  (∃ c, head t = Some c ∧ is_word U c = true) ∧
  (∃ c, last t = Some c ∧ is_word U c = true).
Proof.
  unfold tokenize. intros ([i j] & -> & Hm)%list_elem_of_fmap. simpl.
  unfold findall in Hm. apply scan_spec in Hm as [_ Hmax];
    [|lia|apply passed_start].
  destruct (maximal_span_ends _ _ _ Hmax) as [Hfirst Hlast].
  destruct Hmax as [(Hij & Hlen & Hcl & _ & _) _].
  pose proof (length_slice txt i j Hlen) as Hsl.
  split; [|split; [|split]].
  - intros Hnil. rewrite Hnil in Hsl. simpl in Hsl. lia.
  - apply Forall_lookup. intros m c Hc.
    assert (Hmj : m < j - i).
    { rewrite <- Hsl. by eapply lookup_lt_Some. }
    rewrite lookup_slice in Hc by done.
    specialize (Hcl (i + m)). unfold class_at in Hcl. rewrite Hc in Hcl.
    apply Hcl. lia.
  - rewrite head_lookup, lookup_slice by (done || lia).
    rewrite Nat.add_0_r. unfold word_at in Hfirst.
    destruct (txt !! i) as [c|]; [|done]. eauto.
  - rewrite last_lookup, Hsl, lookup_slice by (done || lia).
    replace (i + Nat.pred (j - i)) with (j - 1) by lia.
    unfold word_at in Hlast. destruct (txt !! (j - 1)) as [c|]; [|done]. eauto.
Qed.

End TokenShape.

(** ** Tokens on both sides of a separator *)

Section TokenCompose.
Variable U : chartab.
Import Tokenizer.

Section Separator.
Variables (a b : text) (sep : N).
Hypothesis Hsep : in_class U sep = false.

Let s : text := a ++ sep :: b.
Let n : nat := length a.

Lemma sep_not_word : is_word U sep = false.
Proof using Hsep.
  unfold in_class in Hsep. by apply orb_false_elim in Hsep as [? _].
Qed.

Lemma lookup_sep_right (k : nat) : s !! (S n + k) = b !! k.
Proof.
  unfold s, n. rewrite lookup_app_r by lia.
  by replace (S (length a) + k - length a) with (S k) by lia.
Qed.

Lemma word_at_left (i : nat) : i ≤ n → word_at U s i = word_at U a i.
Proof using Hsep.
  intros Hi. unfold word_at. destruct (decide (i = n)) as [->|].
  - unfold s, n. rewrite list_lookup_middle by done.
    rewrite (lookup_ge_None_2 a) by done. apply sep_not_word.
  - unfold s. rewrite lookup_app_l by (unfold n in *; lia). done.
Qed.

Lemma class_at_left (i : nat) : i ≤ n → class_at U s i = class_at U a i.
Proof using Hsep.
  intros Hi. unfold class_at. destruct (decide (i = n)) as [->|].
  - unfold s, n. rewrite list_lookup_middle by done.
    by rewrite (lookup_ge_None_2 a) by done.
  - unfold s. rewrite lookup_app_l by (unfold n in *; lia). done.
Qed.

Lemma word_at_right (k : nat) : word_at U s (S n + k) = word_at U b k.
Proof. unfold word_at. by rewrite lookup_sep_right. Qed.

Lemma class_at_right (k : nat) : class_at U s (S n + k) = class_at U b k.
Proof. unfold class_at. by rewrite lookup_sep_right. Qed.

Lemma boundary_left (i : nat) : i ≤ n → boundary U s i = boundary U a i.
Proof using Hsep.
  intros Hi. unfold boundary. rewrite word_at_left by done.
  destruct i as [|i]; [done|]. simpl. by rewrite word_at_left by lia.
Qed.

Lemma boundary_right (k : nat) : boundary U s (S n + k) = boundary U b k.
Proof using Hsep.
  unfold boundary. rewrite word_at_right. destruct k as [|k]; simpl.
  - rewrite Nat.add_0_r, word_at_left by done.
    unfold word_at, n. by rewrite (lookup_ge_None_2 a) by done.
  - replace (n + S k) with (S n + k) by lia. by rewrite word_at_right.
Qed.

Lemma class_at_sep : class_at U s n = false.
Proof using Hsep.
  unfold class_at, s, n. by rewrite list_lookup_middle by done.
Qed.

Lemma length_sep : length s = S n + length b.
Proof. unfold s, n. rewrite length_app. simpl. lia. Qed.

(** A span of the whole text lies on one side of the separator. *)
Lemma span_sep (i j : nat) :
  span U s i j ↔
  span U a i j ∨ ∃ i' j', i = S n + i' ∧ j = S n + j' ∧ span U b i' j'.
Proof using Hsep.
  split.
  - intros (Hij & Hlen & Hcl & Hbi & Hbj).
    destruct (decide (j ≤ n)) as [Hj|Hj].
    + left. split; [done|]. split; [done|]. split; [|split].
      * intros k Hk. rewrite <- class_at_left by lia. by apply Hcl.
      * by rewrite <- boundary_left by lia.
      * by rewrite <- boundary_left by lia.
    + assert (Hi : n < i).
      { destruct (decide (n < i)) as [|Hn]; [done|]. exfalso.
        pose proof class_at_sep as Hs. rewrite Hcl in Hs; [done|lia]. }
      right. exists (i - S n), (j - S n).
      split; [lia|]. split; [lia|]. rewrite length_sep in Hlen.
      split; [lia|]. split; [lia|]. split; [|split].
      * intros k Hk. rewrite <- class_at_right. apply Hcl. lia.
      * rewrite <- boundary_right. by replace (S n + (i - S n)) with i by lia.
      * rewrite <- boundary_right. by replace (S n + (j - S n)) with j by lia.
  - intros [(Hij & Hlen & Hcl & Hbi & Hbj)|(i' & j' & -> & -> & Hsp)].
    + fold n in Hlen. split; [done|]. split; [rewrite length_sep; lia|].
      split; [|split].
      * intros k Hk. rewrite class_at_left by lia. by apply Hcl.
      * by rewrite boundary_left by lia.
      * by rewrite boundary_left by lia.
    + destruct Hsp as (Hij & Hlen & Hcl & Hbi & Hbj).
      split; [lia|]. split; [rewrite length_sep; lia|]. split; [|split].
      * intros k Hk. replace k with (S n + (k - S n)) by lia.
        rewrite class_at_right. apply Hcl. lia.
      * by rewrite boundary_right.
      * by rewrite boundary_right.
Qed.

Lemma span_left_bound (i j : nat) : span U a i j → j ≤ n.
Proof. by intros (_ & ? & _). Qed.

Lemma maximal_span_sep (i j : nat) :
  maximal_span U s i j ↔
  maximal_span U a i j ∨
  ∃ i' j', i = S n + i' ∧ j = S n + j' ∧ maximal_span U b i' j'.
Proof using Hsep.
  split.
  - intros [Hsp Hmax]. apply span_sep in Hsp as [Hsp|(i' & j' & -> & -> & Hsp)].
    + left. split; [done|]. intros i2 j2 Hi2 Hj2 Hsp2.
      apply Hmax; [done|done|]. apply span_sep. by left.
    + right. exists i', j'. split; [done|]. split; [done|].
      split; [done|]. intros i2 j2 Hi2 Hj2 Hsp2.
      destruct (Hmax (S n + i2) (S n + j2)) as [? ?]; [lia|lia| |lia].
      apply span_sep. right. by exists i2, j2.
  - intros [[Hsp Hmax]|(i' & j' & -> & -> & Hsp & Hmax)].
    + split; [apply span_sep; by left|]. intros i2 j2 Hi2 Hj2 Hsp2.
      apply span_sep in Hsp2 as [Hsp2|(i3 & j3 & -> & -> & Hsp3)].
      * by apply Hmax.
      * pose proof (span_left_bound _ _ Hsp). destruct Hsp as (? & _).
        destruct Hsp3 as (? & _). lia.
    + split; [apply span_sep; right; by exists i', j'|].
      intros i2 j2 Hi2 Hj2 Hsp2.
      apply span_sep in Hsp2 as [Hsp2|(i3 & j3 & -> & -> & Hsp3)].
      * pose proof (span_left_bound _ _ Hsp2). destruct Hsp2 as (? & _).
        destruct Hsp as (? & _). lia.
      * destruct (Hmax i3 j3) as [-> ->]; [lia|lia|done|done].
Qed.

End Separator.

Lemma findall_spec (s : text) (m : nat * nat) :
  m ∈ findall U s ↔ maximal_span U s m.1 m.2.
Proof.
  destruct m as [i j]. unfold findall.
  rewrite scan_spec; [|lia|apply passed_start]. simpl. split; [by intros [_ ?]|].
  intros H. split; [lia|done].
Qed.

Lemma findall_sorted (s : text) : left_to_right (findall U s).
Proof. apply scan_left_to_right; [lia|apply passed_start]. Qed.

(** A list of matches from left to right is determined by its
    elements. *)
Lemma left_to_right_unique (l1 l2 : list (nat * nat)) :
  left_to_right l1 → left_to_right l2 →
  (∀ m, m ∈ l1 → m.1 < m.2) →
  (∀ m, m ∈ l1 ↔ m ∈ l2) →
  l1 = l2.
Proof.
  intros H1 H2 Hpos Heq.
  assert (Hnd : ∀ l, left_to_right l → (∀ m, m ∈ l → m.1 < m.2) → NoDup l).
  { intros l Hl. induction Hl as [|x l Hl IH Hx]; intros Hp; [constructor|].
    constructor; [|apply IH; intros m ?; apply Hp; by right].
    intros Hin. rewrite Forall_forall in Hx. specialize (Hx x Hin). simpl in Hx.
    specialize (Hp x (list_elem_of_here _ _)). lia. }
  apply (StronglySorted_unique_strong (λ x y, x.2 ≤ y.1)); [|done|done|].
  - intros x1 x2 Hx1 Hx2 H12 H21. simpl in *.
    pose proof (Hpos x1 Hx1). apply Heq in Hx2. pose proof (Hpos x2 Hx2). lia.
  - apply NoDup_Permutation; [by apply Hnd| |done].
    apply Hnd; [done|]. intros m Hm. apply Hpos. by apply Heq.
Qed.

Lemma findall_sep (a b : text) (sep : N) :
  in_class U sep = false →
  findall U (a ++ sep :: b) =
  findall U a ++
  map (λ m, (S (length a) + m.1, S (length a) + m.2)) (findall U b).
Proof.
  intros Hsep. apply left_to_right_unique.
  - apply findall_sorted.
  - apply StronglySorted_app_2; [|apply findall_sorted|].
    + intros x1 x2 Hx1%findall_spec (m & -> & Hm)%list_elem_of_fmap. simpl.
      destruct Hx1 as [(_ & ? & _) _]. lia.
    + apply StronglySorted_map. simpl.
      generalize (findall_sorted b). apply StronglySorted_impl_in.
      intros x y _ _. simpl. lia.
  - intros m [(? & _) _]%findall_spec. done.
  - intros [i j]. rewrite elem_of_app, list_elem_of_fmap, findall_spec.
    rewrite maximal_span_sep by done. rewrite findall_spec. simpl.
    split; (intros [?|H]; [by left|right]).
    + destruct H as (i' & j' & -> & -> & H). exists (i', j').
      split; [done|]. by apply findall_spec.
    + destruct H as ([i' j'] & [= -> ->] & H%findall_spec). by exists i', j'.
Qed.

Lemma tokenize_sep (a b : text) (sep : N) :
  in_class U sep = false →
  tokenize U (a ++ sep :: b) = tokenize U a ++ tokenize U b.
Proof.
  intros Hsep. unfold tokenize. rewrite findall_sep by done.
  rewrite map_app, map_map. f_equal.
  - apply map_ext_in. intros [i j] [(Hij & Hj & _) _]%list_elem_of_In%findall_spec.
    simpl in *. unfold slice. rewrite drop_app_le by lia.
    rewrite take_app_le; [done|]. rewrite length_drop. lia.
  - apply map_ext. intros [i j]. cbn [fst snd]. unfold slice.
    replace (S (length a) + j - (S (length a) + i)) with (j - i) by lia.
    replace (S (length a) + i) with (length a + S i) by lia.
    by rewrite drop_app_add.
Qed.

(** X3. The tokens of a text with a character that is neither a word
    character nor a hyphen in it (a space, a sentence mark) are the
    tokens of the part before it followed by the tokens of the part after
    it: no token reaches across. *)
Theorem tokenize_separator (a b : text) (sep : N) :
  in_class U sep = false →
  tokenize U (a ++ sep :: b) = tokenize U a ++ tokenize U b.
Proof. apply tokenize_sep. Qed.

End TokenCompose.

(** ** Sentences *)

Section SentenceFacts.
Variable U : chartab.
Import Tokenizer.

Lemma split_marks_concat (cur : text) (in_run : bool) (s : text) :
  (in_run = true → cur = []) →
  concat (split_marks cur in_run s) = reverse cur ++ filter not_mark s.
Proof.
  revert cur in_run. induction s as [|c s IH]; intros cur in_run Hrun; simpl.
  - by rewrite filter_nil.
  - rewrite filter_cons. destruct (is_mark c) eqn:Hc.
    + rewrite decide_False by done. destruct in_run.
      * rewrite IH by done. by rewrite Hrun.
      * simpl. by rewrite IH.
    + rewrite decide_True by done. rewrite IH by done.
      by rewrite reverse_cons, <- app_assoc.
Qed.

Lemma split_marks_no_mark (cur : text) (in_run : bool) (s : text) :
  Forall not_mark cur → Forall (Forall not_mark) (split_marks cur in_run s).
Proof.
  revert cur in_run. induction s as [|c s IH]; intros cur in_run Hcur; simpl.
  - repeat constructor. by apply Forall_reverse.
  - destruct (is_mark c) eqn:Hc.
    + destruct in_run; [by apply IH|].
      constructor; [by apply Forall_reverse|by apply IH].
    + apply IH. by constructor.
Qed.

Lemma split_marks_whole (cur : text) (in_run : bool) (s : text) :
  Forall not_mark s → split_marks cur in_run s = [reverse cur ++ s].
Proof.
  revert cur in_run. induction s as [|c s IH]; intros cur in_run Hs; simpl.
  - by rewrite app_nil_r.
  - apply Forall_cons in Hs as [Hc Hs]. rewrite Hc, IH by done.
    by rewrite reverse_cons, <- app_assoc.
Qed.

(** X4. Splitting at the sentence marks loses the marks and nothing else:
    the pieces, put together, are the text without its marks, no piece
    contains a mark, and a text without marks is its own single piece. *)
Theorem re_split_marks_pieces (txt : text) :
  concat (re_split_marks txt) = filter not_mark txt ∧
  Forall (Forall not_mark) (re_split_marks txt) ∧
  (Forall not_mark txt → re_split_marks txt = [txt]).
Proof.
  unfold re_split_marks. split; [by rewrite split_marks_concat|].
  split; [by apply split_marks_no_mark|].
  intros H. by rewrite split_marks_whole.
Qed.

Lemma lstrip_suffix (s : text) :
  ∃ sp, s = sp ++ lstrip U s ∧ Forall (λ c, isspace U c = true) sp.
Proof.
  induction s as [|c s (sp & Hs & Hsp)]; simpl; [by exists []|].
  destruct (isspace U c) eqn:Hc.
  - exists (c :: sp). split; [by rewrite Hs at 1|by constructor].
  - by exists [].
Qed.

Lemma lstrip_head (s : text) (c : N) :
  head (lstrip U s) = Some c → isspace U c = false.
Proof.
  induction s as [|d s IH]; simpl; [done|].
  destruct (isspace U d) eqn:Hd; [done|]. simpl. by intros [= <-].
Qed.

Lemma lstrip_last (s : text) :
  lstrip U s ≠ [] → last (lstrip U s) = last s.
Proof.
  intros Hne. destruct (lstrip_suffix s) as (sp & Hs & _).
  rewrite Hs at 2. rewrite last_app.
  destruct (last (lstrip U s)) eqn:Hl; [done|].
  by apply last_None in Hl.
Qed.

(** [strip] cuts white space off both ends. *)
Lemma strip_split (s : text) :
  ∃ sp1 sp2, s = sp1 ++ strip U s ++ sp2 ∧
             Forall (λ c, isspace U c = true) sp1 ∧
             Forall (λ c, isspace U c = true) sp2.
Proof.
  destruct (lstrip_suffix s) as (sp1 & Hs & Hsp1).
  destruct (lstrip_suffix (reverse (lstrip U s))) as (sp2 & Hr & Hsp2).
  exists sp1, (reverse sp2). split; [|split; [done|by apply Forall_reverse]].
  unfold strip. rewrite <- reverse_app, <- Hr, reverse_involutive. done.
Qed.

(** X5. Every sentence is non-empty, contains no sentence mark, and neither
    begins nor ends with white space. *)
Theorem sentence_shape (txt s : text) :
  s ∈ sentences U txt →
  s ≠ [] ∧
  Forall not_mark s ∧
  (∀ c, head s = Some c → isspace U c = false) ∧
  (∀ c, last s = Some c → isspace U c = false).
Proof.
  unfold sentences. intros (p & -> & [Hne Hp]%list_elem_of_filter)%list_elem_of_fmap.
  split; [done|]. split; [|split].
  - pose proof (split_marks_no_mark [] false txt (Forall_nil_2 _)) as Hall.
    fold (re_split_marks txt) in Hall.
    rewrite Forall_forall in Hall. specialize (Hall p Hp).
    destruct (strip_split p) as (sp1 & sp2 & Heq & _).
    rewrite Heq in Hall. apply Forall_app in Hall as [_ Hall].
    by apply Forall_app in Hall as [Hall _].
  - intros c. unfold strip in *. rewrite head_reverse.
    assert (Hne' : lstrip U (reverse (lstrip U p)) ≠ []).
    { intros H. by rewrite H in Hne. }
    rewrite lstrip_last by done. rewrite last_reverse. apply lstrip_head.
  - intros c. unfold strip. rewrite last_reverse. apply lstrip_head.
Qed.

(** *** The tokens of the sentences *)

Section Tables.
Hypothesis Hspace : ∀ c, isspace U c = true → in_class U c = false.
Hypothesis Hmark : ∀ c, is_mark c = true → in_class U c = false.

Lemma tokenize_skip (c : N) (s : text) :
  in_class U c = false → tokenize U (c :: s) = tokenize U s.
Proof. intros Hc. by apply (tokenize_sep U [] s c). Qed.

Lemma tokenize_no_class (sp : text) :
  Forall (λ c, in_class U c = false) sp → tokenize U sp = [].
Proof.
  induction 1 as [|c sp Hc _ IH]; [done|]. by rewrite tokenize_skip.
Qed.

Lemma tokenize_padded (sp1 s sp2 : text) :
  Forall (λ c, in_class U c = false) sp1 →
  Forall (λ c, in_class U c = false) sp2 →
  tokenize U (sp1 ++ s ++ sp2) = tokenize U s.
Proof.
  intros H1 H2. induction H1 as [|c sp1 Hc _ IH]; simpl.
  - destruct H2 as [|c sp2 Hc H2]; [by rewrite app_nil_r|].
    rewrite tokenize_sep by done.
    by rewrite (tokenize_no_class sp2), app_nil_r.
  - by rewrite tokenize_skip.
Qed.

Lemma tokenize_strip (s : text) : tokenize U (strip U s) = tokenize U s.
Proof using Hspace.
  destruct (strip_split s) as (sp1 & sp2 & Heq & Hsp1 & Hsp2).
  rewrite Heq at 2. rewrite tokenize_padded; [done| |].
  - eapply Forall_impl; [exact Hsp1|exact Hspace].
  - eapply Forall_impl; [exact Hsp2|exact Hspace].
Qed.

Lemma tokenize_split_marks (cur : text) (in_run : bool) (s : text) :
  (in_run = true → cur = []) →
  concat (map (tokenize U) (split_marks cur in_run s)) =
  tokenize U (reverse cur ++ s).
Proof using Hmark.
  revert cur in_run. induction s as [|c s IH]; intros cur in_run Hrun; simpl.
  - by rewrite !app_nil_r.
  - destruct (is_mark c) eqn:Hc.
    + rewrite tokenize_sep by (by apply Hmark). destruct in_run.
      * rewrite IH by done. by rewrite Hrun.
      * simpl. by rewrite IH.
    + rewrite IH by done. by rewrite reverse_cons, <- app_assoc.
Qed.

Lemma tokenize_sentences_of (pieces : list text) :
  concat (map (tokenize U)
              (map (strip U) (filter (λ s, strip U s ≠ []) pieces))) =
  concat (map (tokenize U) pieces).
Proof using Hspace.
  induction pieces as [|p pieces IH]; [done|].
  rewrite filter_cons. simpl. destruct (decide (strip U p ≠ [])) as [Hne|He].
  - simpl. by rewrite IH, tokenize_strip.
  - rewrite IH. apply dec_stable in He.
    by rewrite <- (tokenize_strip p), He.
Qed.

End Tables.

(** X6. When white space and the sentence marks are neither word characters
    nor hyphens, as in Unicode, the tokens of the sentences of a text,
    taken in order, are the tokens of the text: every token lies in
    exactly one sentence, and the token counts of the sentences add up to
    the token count of the text. *)
Theorem sentence_tokens (txt : text) :
  (∀ c, isspace U c = true → in_class U c = false) →
  (∀ c, is_mark c = true → in_class U c = false) →
  concat (map (tokenize U) (sentences U txt)) = tokenize U txt ∧
  sum_list (map (λ s, length (tokenize U s)) (sentences U txt)) =
    length (tokenize U txt).
Proof.
  intros Hspace Hmark.
  assert (Hcat : concat (map (tokenize U) (sentences U txt)) = tokenize U txt).
  { unfold sentences, re_split_marks.
    rewrite tokenize_sentences_of by done.
    by rewrite tokenize_split_marks. }
  split; [done|]. rewrite <- Hcat, length_concat_sum. by rewrite map_map.
Qed.

End SentenceFacts.

(** ** Values between 0 and 1 *)

Lemma of_int_ratio_unit (a b : nat) :
  a ≤ b → 0 < b → (0 <= of_int a / of_int b)%Q ∧ (of_int a / of_int b <= 1)%Q.
Proof.
  intros Hab Hb. split.
  - apply Qle_shift_div_l; [by apply of_int_pos|].
    rewrite Qmult_0_l. apply (of_int_le 0). lia.
  - apply Qle_shift_div_r; [by apply of_int_pos|].
    rewrite Qmult_1_l. by apply of_int_le.
Qed.

Lemma of_int_ratio_one (a b : nat) :
  0 < b → (of_int a / of_int b == 1)%Q ↔ a = b.
Proof.
  intros Hb. pose proof (of_int_pos b Hb) as Hpos.
  assert (Hne : ¬ (of_int b == 0)%Q).
  { intros H. rewrite H in Hpos. by apply Qlt_irrefl in Hpos. } split.
  - intros H.
    assert (Heq : (of_int a == of_int b)%Q).
    { rewrite <- (Qmult_div_r (of_int a) (of_int b)) by done.
      rewrite H. by rewrite Qmult_1_r. }
    unfold of_int in Heq. apply (proj1 (inject_Z_injective _ _)) in Heq. lia.
  - intros ->. unfold Qdiv. by apply Qmult_inv_r.
Qed.

Lemma of_int_ratio_zero (a b : nat) :
  0 < b → (of_int a / of_int b == 0)%Q ↔ a = 0.
Proof.
  intros Hb. pose proof (of_int_pos b Hb) as Hpos.
  assert (Hne : ¬ (of_int b == 0)%Q).
  { intros H. rewrite H in Hpos. by apply Qlt_irrefl in Hpos. } split.
  - intros H.
    assert (Heq : (of_int a == of_int 0)%Q).
    { rewrite <- (Qmult_div_r (of_int a) (of_int b)) by done.
      rewrite H. by rewrite Qmult_0_r. }
    unfold of_int in Heq. apply (proj1 (inject_Z_injective _ _)) in Heq. lia.
  - intros ->. unfold Qdiv. by rewrite Qmult_0_l.
Qed.

(** ** Similarity of equal and of disjoint sets *)

Lemma set_similarity_extremes (s1 s2 : gset text) :
  ((set_similarity s1 s2 == 1)%Q ↔ s1 = s2 ∧ s1 ≠ ∅) ∧
  ((set_similarity s1 s2 == 0)%Q ↔ s1 ∩ s2 = ∅).
Proof.
  unfold set_similarity. destruct (decide (s1 ∪ s2 = ∅)) as [He|Hne].
  - apply empty_union_L in He as [-> ->]. split.
    + split; [by intros H|]. by intros [_ H].
    + split; [|done]. intros _. set_solver.
  - assert (Hpos : 0 < size (s1 ∪ s2)).
    { apply Nat.neq_0_lt_0. apply size_non_empty_iff. by intros ?%leibniz_equiv. }
    rewrite of_int_ratio_one, of_int_ratio_zero by done. split.
    + split.
      * intros Hsz.
        assert (Heq : s1 ∩ s2 = s1 ∪ s2).
        { apply set_subseteq_size_eq; [set_solver|lia]. }
        split; [set_solver|]. intros ->. apply Hne. set_solver.
      * intros [-> _]. f_equal. set_solver.
    + split.
      * intros Hsz. by apply leibniz_equiv, size_empty_iff.
      * intros ->. apply size_empty.
Qed.

(** X7. The similarity of two collections is 1 exactly when they have the
    same elements and are not empty, and 0 exactly when they have no
    common element (two empty collections included). *)
Theorem jaccard_extremes (a b : list text) :
  ((jaccard_similarity a b == 1)%Q ↔
     (list_to_set a : gset text) = list_to_set b ∧ a ≠ []) ∧
  ((jaccard_similarity a b == 0)%Q ↔ ∀ x, x ∈ a → x ∉ b).
Proof.
  rewrite jaccard_of_sets. simpl.
  destruct (set_similarity_extremes (list_to_set a) (list_to_set b)) as [H1 H0].
  unfold set_similarity in *. rewrite H1, H0. split.
  - split; intros [Heq Hne]; (split; [done|]).
    + intros ->. by apply Hne.
    + intros He. destruct a as [|x a]; [done|].
      assert (x ∈ (∅ : gset text)); [|set_solver].
      rewrite <- He. set_solver.
  - split.
    + intros He x Ha Hb. assert (x ∈ (∅ : gset text)); [|set_solver].
      rewrite <- He. set_solver.
    + intros H. apply set_eq. intros x. set_solver.
Qed.

(** X8. The similarity depends on the elements only: order and repetition
    in the two collections do not matter. *)
Theorem jaccard_same_elements (a a' b b' : list text) :
  (∀ x, x ∈ a ↔ x ∈ a') → (∀ x, x ∈ b ↔ x ∈ b') →
  jaccard_similarity a b = jaccard_similarity a' b'.
Proof.
  intros Ha Hb. rewrite !jaccard_of_sets. simpl.
  assert (Hsa : (list_to_set a : gset text) = list_to_set a').
  { apply set_eq. intros x. rewrite !elem_of_list_to_set. apply Ha. }
  assert (Hsb : (list_to_set b : gset text) = list_to_set b').
  { apply set_eq. intros x. rewrite !elem_of_list_to_set. apply Hb. }
  by rewrite Hsa, Hsb.
Qed.

(** ** Means *)

Lemma sum_list_between (nums : list nat) (lo hi : nat) :
  Forall (λ n, lo ≤ n ≤ hi) nums →
  length nums * lo ≤ sum_list nums ≤ length nums * hi.
Proof.
  induction 1 as [|x nums Hx _ IH]; simpl; lia.
Qed.

Lemma of_int_mult (a b : nat) : (of_int a * of_int b == of_int (a * b))%Q.
Proof. unfold of_int. by rewrite Nat2Z.inj_mul, inject_Z_mult. Qed.

(** X9. The mean of a non-empty list of ints below [2^53], which is how
    lines 67 and 68 call [avg], lies between any two bounds of its
    elements; in particular it lies between the least and the greatest
    of them. *)
Theorem avg_between (nums : list nat) (lo hi : nat) :
  nums ≠ [] →
  Forall (λ n, lo ≤ n ≤ hi) nums →
  (Z.of_nat hi < 2 ^ 53)%Z →
  (of_int lo <= avg_int nums)%Q ∧ (avg_int nums <= of_int hi)%Q.
Proof.
  intros Hne Hall Hhi. destruct nums as [|x nums]; [done|].
  unfold avg_int. set (l := x :: nums) in *.
  assert (Hpos : (0 < of_int (length l))%Q) by (apply of_int_pos; simpl; lia).
  destruct (sum_list_between l lo hi Hall) as [Hlo Hup].
  assert (Hq1 : (of_int lo <= of_int (sum_list l) / of_int (length l))%Q).
  { apply Qle_shift_div_l; [done|].
    rewrite of_int_mult. apply of_int_le. lia. }
  assert (Hq2 : (of_int (sum_list l) / of_int (length l) <= of_int hi)%Q).
  { apply Qle_shift_div_r; [done|].
    rewrite of_int_mult. apply of_int_le. lia. }
  assert (H0 : (0 <= of_int lo)%Q) by (apply (of_int_le 0); lia).
  split.
  - apply float64_ge_Z; [done|done|].
    eapply Qle_lt_trans; [exact Hq2|].
    rewrite <- (two_pow_Z 53) by lia. unfold of_int. by rewrite <- Zlt_Qlt.
  - apply float64_le_Z; [lra|done|done].
Qed.

Lemma avg_int_nonneg (nums : list nat) : (0 <= avg_int nums)%Q.
Proof.
  destruct nums as [|x nums]; [done|].
  unfold avg_int. set (l := x :: nums) in *.
  assert (Hpos : (0 < of_int (length l))%Q) by (apply of_int_pos; simpl; lia).
  apply float64_nonneg, Qle_shift_div_l; [done|].
  rewrite Qmult_0_l. apply (of_int_le 0). lia.
Qed.

Lemma avg_nonneg (U : chartab) (nums : list Q) :
  Forall (λ x, (0 <= x)%Q) nums → (0 <= avg U nums)%Q.
Proof.
  intros Hall. destruct nums as [|x nums]; [done|].
  unfold avg. set (l := x :: nums) in *.
  apply float64_nonneg, Qmult_le_0_compat.
  - by apply float_sum_nonneg.
  - apply Qinv_le_0_compat, float64_nonneg, (of_int_le 0). lia.
Qed.

(** The float mean of floats, lines 95 and 96, is another matter: with
    the left-to-right sum the mean of three times 0.1 is
    0.10000000000000002. *)
Example avg_of_floats_above :
  avg ascii_tab [float64 (1 # 10); float64 (1 # 10); float64 (1 # 10)] =
    float64 (10000000000000002 # 100000000000000000) ∧
  (float64 (1 # 10) <
     avg ascii_tab [float64 (1 # 10); float64 (1 # 10); float64 (1 # 10)])%Q.
Proof. vm_compute. done. Qed.

(** ** Counters, again *)

Section CounterMore.
Import Counter.

Lemma occ_le_length k l : occ k l ≤ length l.
Proof. apply length_filter. Qed.

Lemma sum_counts_incr k (c : Counter.t) :
  sum_list (incr k c).*2 = S (sum_list c.*2).
Proof.
  induction c as [|[k' n] c IH]; [done|]. simpl incr.
  destruct (decide (k = k')); [done|].
  rewrite !fmap_cons. cbn [sum_list_with snd id]. rewrite IH. lia.
Qed.

Lemma sum_counts_of_list (l : list text) : sum_list (of_list l).*2 = length l.
Proof.
  induction l as [|x l IH] using rev_ind; [done|].
  unfold of_list in *. rewrite foldl_snoc. cbv beta.
  rewrite sum_counts_incr, IH, length_app. simpl. lia.
Qed.

(** X10. Counting a stream item by item gives a counter with one entry for
    each distinct item of the stream, holding the number of its
    occurrences, and the counts add up to the length of the stream. *)
Theorem counter_counts (l : list text) :
  NoDup (of_list l).*1 ∧
  (∀ k c, (k, c) ∈ of_list l ↔ k ∈ l ∧ c = occ k l) ∧
  sum_list (of_list l).*2 = length l.
Proof.
  split; [|split; [|apply sum_counts_of_list]].
  - rewrite of_list_firsts, <- list_fmap_compose. simpl. rewrite list_fmap_id.
    apply NoDup_firsts.
  - intros k c. rewrite of_list_firsts, list_elem_of_fmap. split.
    + intros (k' & Heq & Hk). rewrite elem_of_firsts in Hk. by simplify_eq.
    + intros [Hk ->]. exists k. by rewrite elem_of_firsts.
Qed.

Lemma length_firsts (l : list text) :
  length (firsts l) = size (list_to_set l : gset text).
Proof.
  rewrite <- (size_list_to_set (C:=gset text) (firsts l)) by apply NoDup_firsts.
  f_equal. apply set_eq. intros x.
  by rewrite !elem_of_list_to_set, elem_of_firsts.
Qed.

Lemma most_common_length (n : nat) (l : list text) :
  length (most_common n (of_list l)) = n `min` size (list_to_set l : gset text).
Proof.
  unfold most_common. rewrite length_take, sorted_desc_perm, of_list_firsts.
  by rewrite length_map, length_firsts.
Qed.

Lemma sum_list_take_le (n : nat) (l : list nat) :
  sum_list (take n l) ≤ sum_list l.
Proof.
  rewrite <- (take_drop n l) at 2. rewrite sum_list_with_app. lia.
Qed.

Lemma most_common_sum (n : nat) (l : list text) :
  sum_list (most_common n (of_list l)).*2 ≤ length l ∧
  (size (list_to_set l : gset text) ≤ n →
   sum_list (most_common n (of_list l)).*2 = length l).
Proof.
  assert (Hall : sum_list (sorted_desc (of_list l)).*2 = length l).
  { rewrite sorted_desc_perm. apply sum_counts_of_list. }
  unfold most_common. split.
  - rewrite <- Hall, fmap_take. apply sum_list_take_le.
  - intros Hn. rewrite take_ge; [done|].
    rewrite sorted_desc_perm, of_list_firsts, length_map, length_firsts. done.
Qed.

Lemma most_common_nil (n : nat) (l : list text) :
  0 < n → most_common n (of_list l) = [] ↔ l = [].
Proof.
  intros Hn. split; [|intros ->; apply take_nil].
  intros H%(f_equal length). rewrite most_common_length in H. simpl in H.
  destruct l as [|x l]; [done|]. exfalso.
  assert (Hsz : size (list_to_set (x :: l) : gset text) ≠ 0).
  { apply size_non_empty_iff. rewrite list_to_set_cons. set_solver. }
  lia.
Qed.

End CounterMore.

(** ** More on the report *)

Lemma jaccard_unit (a b : list text) :
  (0 <= jaccard_similarity a b)%Q ∧ (jaccard_similarity a b <= 1)%Q.
Proof.
  rewrite jaccard_of_sets. simpl.
  generalize (list_to_set a : gset text) (list_to_set b : gset text).
  intros s1 s2. destruct (decide (s1 ∪ s2 = ∅)) as [He|Hne]; [done|].
  apply of_int_ratio_unit.
  - apply subseteq_size. set_solver.
  - apply Nat.neq_0_lt_0. apply size_non_empty_iff. by intros ?%leibniz_equiv.
Qed.

Section ReportMore.
Variable U : chartab.
Import Main.

(** X11. In every report each frequency and each similarity lies between 0
    and 1, and no readability value is negative. *)
Theorem report_values_in_range
    (now : text) (files : list (text * record)) (r : Report.t) :
  analyze U now files = Ok r →
  (∀ e, e ∈ Report.top_100_words r →
        (0 <= frequency e)%Q ∧ (frequency e <= 1)%Q) ∧
  (∀ s, s ∈ Report.document_similarity r →
        (0 <= similarity s)%Q ∧ (similarity s <= 1)%Q) ∧
  (0 <= avg_sentence_length (Report.readability r))%Q ∧
  (0 <= avg_word_length (Report.readability r))%Q ∧
  (0 <= complexity_score (Report.readability r))%Q.
Proof.
  intros [_ ->]%analyze_Ok. unfold build_report.
  cbn [Report.top_100_words Report.document_similarity Report.readability
       avg_sentence_length avg_word_length complexity_score].
  rewrite ingested_stream, ingested_total, ingested_sentence_means,
    ingested_word_means.
  assert (Hsl : (0 <= avg U (map (doc_sentence_mean U) files))%Q).
  { apply avg_nonneg, Forall_fmap, Forall_forall. intros f _. simpl.
    apply avg_int_nonneg. }
  assert (Hwl : (0 <= avg U (map (doc_word_mean U) files))%Q).
  { apply avg_nonneg, Forall_fmap, Forall_forall. intros f _. simpl.
    apply avg_int_nonneg. }
  split; [|split; [|split; [|split]]].
  - intros e (wc & -> & Hwc)%list_elem_of_fmap. simpl.
    destruct (most_common_spec 100 (corpus_stream U files))
      as (_ & _ & Hcnt & _).
    destruct (Hcnt wc Hwc) as [Hocc Hpos].
    pose proof (occ_le_length wc.1 (corpus_stream U files)) as Hle.
    rewrite bool_decide_eq_true_2 by lia.
    apply py_round_unit; apply of_int_ratio_unit; lia.
  - intros s (p & -> & _)%list_elem_of_fmap. simpl.
    apply py_round_unit; apply jaccard_unit.
  - by apply py_round_nonneg.
  - by apply py_round_nonneg.
  - apply py_round_nonneg, float64_nonneg. apply Qmult_le_0_compat; [done|].
    apply float64_nonneg. apply Qle_shift_div_l; [done|]. lra.
Qed.

(** X12. [top_100_words] has as many entries as the corpus has distinct
    lower-cased words, up to 100; the listed counts never add up to more
    than [total_words], and add up to [total_words] when the corpus has
    at most 100 distinct words. *)
Theorem top_100_words_size
    (now : text) (files : list (text * record)) (r : Report.t) :
  analyze U now files = Ok r →
  length (Report.top_100_words r) = 100 `min` Report.unique_words r ∧
  sum_list (map count (Report.top_100_words r)) ≤ Report.total_words r ∧
  (Report.unique_words r ≤ 100 →
   sum_list (map count (Report.top_100_words r)) = Report.total_words r).
Proof.
  intros [_ ->]%analyze_Ok. unfold build_report.
  cbn [Report.top_100_words Report.total_words Report.unique_words].
  rewrite ingested_stream, ingested_total.
  rewrite length_map, map_map. cbn [count].
  destruct (most_common_sum 100 (corpus_stream U files)) as [Hle Heq].
  split; [apply most_common_length|]. done.
Qed.

(** X13. The bigram table is empty exactly when the corpus has fewer than two
    tokens, and the trigram table exactly when it has fewer than three. *)
Theorem ngram_tables_empty
    (now : text) (files : list (text * record)) (r : Report.t) :
  analyze U now files = Ok r →
  (Report.top_bigrams r = [] ↔ Report.total_words r < 2) ∧
  (Report.top_trigrams r = [] ↔ Report.total_words r < 3).
Proof.
  intros [_ ->]%analyze_Ok. unfold build_report.
  cbn [Report.top_bigrams Report.top_trigrams Report.total_words].
  rewrite ingested_stream, ingested_total.
  assert (Hn : ∀ n, 0 < n →
    ngram_entries n (corpus_stream U files) = [] ↔
    length (corpus_stream U files) < n).
  { intros n Hn. unfold ngram_entries. split.
    - intros H%fmap_nil_inv. apply most_common_nil in H; [|lia].
      apply (f_equal length) in H. rewrite ngrams_length in H. simpl in H. lia.
    - intros Hlt.
      assert (Hg : ngrams (corpus_stream U files) n = []).
      { apply nil_length_inv. rewrite ngrams_length. lia. }
      by rewrite Hg. }
  split; apply Hn; lia.
Qed.

End ReportMore.

(** ** Pairs of documents, again *)

Lemma combinations2_distinct {A} (l : list A) :
  NoDup l →
  NoDup (combinations2 l) ∧
  ∀ a b, (a, b) ∈ combinations2 l → a ≠ b ∧ (b, a) ∉ combinations2 l.
Proof.
  induction l as [|x xs IH]; simpl.
  - intros _. split; [constructor|]. by intros a b ?%elem_of_nil.
  - intros [Hx Hxs]%NoDup_cons. destruct (IH Hxs) as [Hnd Hpairs]. split.
    + apply NoDup_app. split; [|split; [|done]].
      * apply (NoDup_fmap_2 _). done.
      * intros p (b & -> & Hb)%list_elem_of_fmap Hp.
        apply combinations2_elem_of in Hp as [Hp _]. done.
    + intros a b. rewrite !elem_of_app, !list_elem_of_fmap.
      intros [(c & [= -> ->] & Hc)|Hab].
      * split; [by intros ->|].
        intros [(c' & [= -> ->] & Hc')|Hp]; [done|].
        apply combinations2_elem_of in Hp as [_ Hp]. done.
      * destruct (Hpairs a b Hab) as [Hne Hrev]. split; [done|].
        apply combinations2_elem_of in Hab as [Ha Hb]. simpl in *.
        intros [(c' & [= -> ->] & Hc')|Hp]; done.
Qed.

Lemma NoDup_fst_eq {A B} (l : list (A * B)) (p q : A * B) :
  NoDup (map fst l) → p ∈ l → q ∈ l → p.1 = q.1 → p = q.
Proof.
  induction l as [|x l IH]; simpl; [by intros _ ?%elem_of_nil|].
  intros [Hx Hl]%NoDup_cons [->|Hp]%elem_of_cons [->|Hq]%elem_of_cons Heq.
  - done.
  - exfalso. apply Hx. rewrite Heq. apply list_elem_of_fmap. by exists q.
  - exfalso. apply Hx. rewrite <- Heq. apply list_elem_of_fmap. by exists p.
  - by apply IH.
Qed.

Section PairsMore.
Variable U : chartab.
Import Main.

Lemma similarity_of_pairs (now : text) (files : list (text * record)) :
  NoDup (map fst files) →
  Report.document_similarity
    (build_report U now (length files) (ingested U vars0 files)) =
  map (λ p, {| doc1 := p.1.1; doc2 := p.2.1;
               similarity :=
                 py_round (set_similarity (doc_word_set U p.1)
                                          (doc_word_set U p.2)) 6 |})
      (combinations2 files).
Proof.
  intros Hnd. unfold build_report. cbn [Report.document_similarity].
  cbn [docs doc_word_sets ingested vars0]. rewrite app_nil_l.
  apply map_ext_in. intros p Hp%list_elem_of_In.
  apply combinations2_elem_of in Hp as [Hp1 Hp2]. unfold get_words.
  rewrite !(word_sets_lookup (doc_word_set U)) by done.
  rewrite jaccard_of_sets. simpl. by rewrite !list_to_set_elements_L.
Qed.

(** X14. With distinct file names no pair of documents is listed twice, no
    document is paired with itself, and no pair is listed in both
    orders. *)
Theorem similarity_pairs_distinct
    (now : text) (files : list (text * record)) (r : Report.t) :
  analyze U now files = Ok r →
  NoDup (map fst files) →
  let pairs := map (λ s, (doc1 s, doc2 s)) (Report.document_similarity r) in
  NoDup pairs ∧ ∀ a b, (a, b) ∈ pairs → a ≠ b ∧ (b, a) ∉ pairs.
Proof.
  intros [_ ->]%analyze_Ok Hnd pairs. subst pairs.
  rewrite similarity_of_pairs by done. rewrite map_map. simpl.
  rewrite <- (combinations2_map fst). by apply combinations2_distinct.
Qed.

(** X15. With distinct file names, the record of two documents that have no
    lower-cased token in common, a document without tokens among them,
    has similarity 0.0, and the record of two documents with the same
    non-empty set of lower-cased tokens has similarity 1.0. *)
Theorem similarity_of_disjoint_and_equal
    (now : text) (files : list (text * record)) (r : Report.t)
    (f1 f2 : text * record) (s : sim_entry) :
  analyze U now files = Ok r →
  NoDup (map fst files) →
  f1 ∈ files → f2 ∈ files →
  s ∈ Report.document_similarity r →
  doc1 s = f1.1 → doc2 s = f2.1 →
  (doc_word_set U f1 ∩ doc_word_set U f2 = ∅ → (similarity s == 0)%Q) ∧
  (doc_word_set U f1 = doc_word_set U f2 → doc_word_set U f1 ≠ ∅ →
   (similarity s == 1)%Q).
Proof.
  intros [_ ->]%analyze_Ok Hnd Hf1 Hf2 Hs Hd1 Hd2.
  rewrite similarity_of_pairs in Hs by done.
  apply list_elem_of_fmap in Hs as (p & -> & Hp). simpl in *.
  apply combinations2_elem_of in Hp as [Hp1 Hp2].
  assert (p.1 = f1) as -> by (by apply (NoDup_fst_eq files)).
  assert (p.2 = f2) as -> by (by apply (NoDup_fst_eq files)).
  destruct (set_similarity_extremes (doc_word_set U f1) (doc_word_set U f2))
    as [H1 H0].
  split.
  - intros Hd. apply H0 in Hd. by rewrite (py_round_proper _ 0 6 Hd).
  - intros He Hne. assert (Hone := proj2 H1 (conj He Hne)).
    by rewrite (py_round_proper _ 1 6 Hone).
Qed.

(** *** How a run ends *)

(** X16. A run that ends without an exception has found every record of
    the listing loadable and has completed both writes; the completion
    is printed in exactly the runs that end without an exception; and a
    report that a run writes is the report of the listing. *)
Theorem main_outcome (e : env) :
  ((main U e).2 = Ok () →
     forallb (λ f, loadable f.2) (listing e) = true ∧
     report_write_ok e = true ∧ marker_write_ok e = true) ∧
  (PrintedComplete ∈ (main U e).1 ↔ (main U e).2 = Ok ()) ∧
  (∀ r, ReportWritten r ∈ (main U e).1 →
        analyze U (report_time e) (listing e) = Ok r).
Proof.
  assert (Hwaits : ∀ n ev, ev ∈ replicate n Waited → ev = Waited).
  { by intros n ev [? _]%elem_of_replicate. }
  rewrite main_cases.
  destruct (forallb (λ f, loadable f.2) (listing e)) eqn:Hall.
  - rewrite (analyze_loadable U _ _ Hall).
    destruct (report_write_ok e), (marker_write_ok e); simpl.
    + split; [done|]. split.
      * split; [done|]. intros _. rewrite elem_of_app, !elem_of_cons. auto.
      * intros r. rewrite elem_of_app, !elem_of_cons, elem_of_nil.
        intros [?%Hwaits|[?|[?|[?|?]]]]; try done. congruence.
    + split; [done|]. split.
      * split; [|done]. rewrite elem_of_app, elem_of_cons, elem_of_nil.
        intros [?%Hwaits|[?|?]]; done.
      * intros r. rewrite elem_of_app, !elem_of_cons, elem_of_nil.
        intros [?%Hwaits|[?|?]]; try done. congruence.
    + split; [done|]. split.
      * split; [|done]. by intros ?%Hwaits.
      * by intros r ?%Hwaits.
    + split; [done|]. split.
      * split; [|done]. by intros ?%Hwaits.
      * by intros r ?%Hwaits.
  - destruct (analyze_raises U (report_time e) _ Hall) as [err ->]. simpl.
    split; [done|]. split.
    + split; [|done]. by intros ?%Hwaits.
    + by intros r ?%Hwaits.
Qed.

End PairsMore.

(** ** Joined n-grams *)

Section NgramsInjective.

Lemma spaced_head (ps : list text) :
  spaced ps = [] ∨ ∃ rest, spaced ps = SPACE :: rest.
Proof. destruct ps as [|p ps]; simpl; eauto. Qed.

Lemma split_at_space (p q r r' : text) :
  SPACE ∉ p → SPACE ∉ q →
  (r = [] ∨ ∃ rest, r = SPACE :: rest) →
  (r' = [] ∨ ∃ rest, r' = SPACE :: rest) →
  p ++ r = q ++ r' → p = q ∧ r = r'.
Proof.
  revert q. induction p as [|c p IH]; intros q Hp Hq Hr Hr' Heq.
  - destruct q as [|d q]; [done|]. exfalso. simpl in Heq.
    destruct Hr as [->|[rest ->]]; [done|]. injection Heq as <- _.
    apply Hq. by left.
  - destruct q as [|d q].
    + exfalso. simpl in Heq.
      destruct Hr' as [->|[rest ->]]; [done|]. injection Heq as -> _.
      apply Hp. by left.
    + simpl in Heq. injection Heq as -> Heq.
      destruct (IH q) as [-> ->]; try done.
      * intros H. apply Hp. by right.
      * intros H. apply Hq. by right.
Qed.

Lemma spaced_inj (ps qs : list text) :
  Forall (λ t, SPACE ∉ t) ps → Forall (λ t, SPACE ∉ t) qs →
  length ps = length qs → spaced ps = spaced qs → ps = qs.
Proof.
  intros Hps. revert qs. induction Hps as [|p ps Hp _ IH];
    intros qs Hqs Hlen Heq; destruct Hqs as [|q qs Hq Hqs]; try done.
  simpl in Heq. injection Heq as Heq. simpl in Hlen.
  destruct (split_at_space p q (spaced ps) (spaced qs)) as [-> Hrest];
    [done|done|apply spaced_head|apply spaced_head|done|].
  f_equal. apply IH; [done|lia|done].
Qed.

Lemma join_space_inj (ps qs : list text) :
  Forall (λ t, SPACE ∉ t) ps → Forall (λ t, SPACE ∉ t) qs →
  length ps = length qs → join [SPACE] ps = join [SPACE] qs → ps = qs.
Proof.
  intros Hps Hqs Hlen Heq.
  destruct Hps as [|p ps Hp Hps], Hqs as [|q qs Hq Hqs]; try done.
  simpl in Heq, Hlen.
  destruct (split_at_space p q (spaced ps) (spaced qs)) as [-> Hrest];
    [done|done|apply spaced_head|apply spaced_head|done|].
  f_equal. apply spaced_inj; [done|done|lia|done].
Qed.

(** X17. When no token contains a space, two positions of the stream give the
    same n-gram only if they hold the same n tokens: the counts of the
    n-gram tables count runs of tokens, and different runs never share an
    entry. *)
Theorem ngrams_injective (tokens : list text) (n i j : nat) :
  Forall (λ t, SPACE ∉ t) tokens →
  i < length (ngrams tokens n) → j < length (ngrams tokens n) →
  ngrams tokens n !! i = ngrams tokens n !! j →
  slice tokens i (i + n) = slice tokens j (j + n).
Proof.
  intros Hall Hi Hj Heq.
  destruct (ngrams_lookup tokens n i Hi) as [Hgi Hli].
  destruct (ngrams_lookup tokens n j Hj) as [Hgj Hlj].
  rewrite Hgi, Hgj in Heq. injection Heq as Heq.
  apply join_space_inj; [| |lia|done]; unfold slice;
    by apply Forall_take, Forall_drop.
Qed.

End NgramsInjective.

(** ** The further properties at concrete inputs *)

Lemma ascii_space_not_class (c : N) :
  isspace ascii_tab c = true → Tokenizer.in_class ascii_tab c = false.
Proof.
  simpl. unfold ascii_isspace. intros H.
  assert (Hc : (c ≤ 32)%N).
  { apply orb_true_iff in H as [H|H]; apply andb_true_iff in H as [_ H];
      apply N.leb_le in H; lia. }
  unfold Tokenizer.in_class, Tokenizer.is_word, HYPHEN, UNDERSCORE. simpl.
  unfold ascii_isalnum.
  rewrite (proj2 (N.leb_gt 48 c)), (proj2 (N.leb_gt 65 c)),
    (proj2 (N.leb_gt 97 c)) by lia.
  by rewrite (proj2 (N.eqb_neq c 95)), (proj2 (N.eqb_neq c 45)) by lia.
Qed.

Lemma ascii_mark_not_class (c : N) :
  is_mark c = true → Tokenizer.in_class ascii_tab c = false.
Proof.
  unfold is_mark. rewrite !orb_true_iff, !N.eqb_eq.
  intros [[->| ->]| ->]; reflexivity.
Qed.

Lemma token_shape_witness :
  py "well-known" ∈ Tokenizer.tokenize ascii_tab (py "-well-known- x") ∧
  Forall (λ c, Tokenizer.in_class ascii_tab c = true) (py "well-known").
Proof.
  assert (Hin : py "well-known" ∈ Tokenizer.tokenize ascii_tab (py "-well-known- x")).
  { apply list_elem_of_In. vm_compute. left. reflexivity. }
  split; [exact Hin|].
  apply (token_shape ascii_tab (py "-well-known- x") (py "well-known") Hin).
Defined.

Lemma tokenize_separator_witness :
  Tokenizer.in_class ascii_tab SPACE = false ∧
  Tokenizer.tokenize ascii_tab (py "Cats chase" ++ SPACE :: py "mice") =
  Tokenizer.tokenize ascii_tab (py "Cats chase") ++
  Tokenizer.tokenize ascii_tab (py "mice").
Proof.
  split; [reflexivity|].
  apply (tokenize_separator ascii_tab (py "Cats chase") (py "mice") SPACE).
  reflexivity.
Defined.

Lemma sentence_tokens_witness :
  (∀ c, isspace ascii_tab c = true → Tokenizer.in_class ascii_tab c = false) ∧
  (∀ c, is_mark c = true → Tokenizer.in_class ascii_tab c = false) ∧
  sum_list (map (λ s, length (Tokenizer.tokenize ascii_tab s))
                (sentences ascii_tab sample_text)) =
    length (Tokenizer.tokenize ascii_tab sample_text).
Proof.
  split; [exact ascii_space_not_class|]. split; [exact ascii_mark_not_class|].
  apply (sentence_tokens ascii_tab sample_text
           ascii_space_not_class ascii_mark_not_class).
Defined.

Lemma sentence_shape_witness :
  py "Mice run fast" ∈ sentences ascii_tab sample_text ∧
  Forall not_mark (py "Mice run fast").
Proof.
  assert (Hin : py "Mice run fast" ∈ sentences ascii_tab sample_text).
  { apply list_elem_of_In. vm_compute. right. left. reflexivity. }
  split; [exact Hin|].
  apply (sentence_shape ascii_tab sample_text (py "Mice run fast") Hin).
Defined.

Lemma re_split_marks_pieces_witness :
  Forall not_mark (py "no marks here") ∧
  re_split_marks (py "no marks here") = [py "no marks here"].
Proof.
  assert (Hall : Forall not_mark (py "no marks here")).
  { refine (bool_decide_unpack _ _). vm_compute. exact I. }
  split; [exact Hall|].
  destruct (re_split_marks_pieces (py "no marks here")) as (_ & _ & Hwhole).
  exact (Hwhole Hall).
Defined.

Lemma jaccard_same_elements_witness :
  (∀ x, x ∈ [py "a"; py "b"; py "a"] ↔ x ∈ [py "b"; py "a"]) ∧
  jaccard_similarity [py "a"; py "b"; py "a"] [py "c"] =
  jaccard_similarity [py "b"; py "a"] [py "c"].
Proof.
  assert (Ha : ∀ x, x ∈ [py "a"; py "b"; py "a"] ↔ x ∈ [py "b"; py "a"]).
  { intros x. rewrite !elem_of_cons, elem_of_nil. tauto. }
  split; [exact Ha|].
  apply (jaccard_same_elements _ _ [py "c"] [py "c"] Ha). intros x. reflexivity.
Defined.

Lemma avg_between_witness :
  Forall (λ n, 1 ≤ n ≤ 2) [1; 1; 2] ∧
  (of_int 1 <= avg_int [1; 1; 2]%nat)%Q ∧ (avg_int [1; 1; 2]%nat <= of_int 2)%Q.
Proof.
  assert (Hall : Forall (λ n, 1 ≤ n ≤ 2) [1; 1; 2]).
  { repeat constructor; lia. }
  split; [exact Hall|].
  apply (avg_between [1; 1; 2] 1 2); [discriminate|exact Hall|reflexivity].
Defined.

Lemma report_values_in_range_witness :
  Main.analyze ascii_tab now0 scenario = Ok (report_of scenario) ∧
  ∀ s, s ∈ Report.document_similarity (report_of scenario) →
       (0 <= similarity s)%Q ∧ (similarity s <= 1)%Q.
Proof.
  split; [vm_compute; reflexivity|].
  apply (report_values_in_range ascii_tab now0 scenario).
  vm_compute. reflexivity.
Defined.

Lemma top_100_words_size_witness :
  Main.analyze ascii_tab now0 scenario = Ok (report_of scenario) ∧
  length (Report.top_100_words (report_of scenario)) =
    100 `min` Report.unique_words (report_of scenario).
Proof.
  split; [vm_compute; reflexivity|].
  apply (top_100_words_size ascii_tab now0 scenario).
  vm_compute. reflexivity.
Defined.

Lemma ngram_tables_empty_witness :
  Main.analyze ascii_tab now0 one_word_docs = Ok (report_of one_word_docs) ∧
  (Report.top_bigrams (report_of one_word_docs) = [] ↔
   Report.total_words (report_of one_word_docs) < 2).
Proof.
  split; [vm_compute; reflexivity|].
  apply (ngram_tables_empty ascii_tab now0 one_word_docs).
  vm_compute. reflexivity.
Defined.

Lemma similarity_pairs_distinct_witness :
  Main.analyze ascii_tab now0 scenario = Ok (report_of scenario) ∧
  NoDup (map fst scenario) ∧
  NoDup (map (λ s, (doc1 s, doc2 s))
             (Report.document_similarity (report_of scenario))).
Proof.
  assert (Hnd : NoDup (map fst scenario)).
  { refine (bool_decide_unpack (NoDup (map fst scenario)) _).
    vm_compute. exact I. }
  split; [vm_compute; reflexivity|]. split; [exact Hnd|].
  apply (similarity_pairs_distinct ascii_tab now0 scenario);
    [vm_compute; reflexivity|exact Hnd].
Defined.

Lemma similarity_of_disjoint_and_equal_witness :
  Main.analyze ascii_tab now0 textless_docs = Ok (report_of textless_docs) ∧
  NoDup (map fst textless_docs) ∧
  textless_pair ∈ Report.document_similarity (report_of textless_docs) ∧
  doc_word_set ascii_tab (doc "a.json" "x y") ∩
    doc_word_set ascii_tab (py "b.json", Object None) = ∅ ∧
  (similarity textless_pair == 0)%Q.
Proof.
  assert (Hnd : NoDup (map fst textless_docs)).
  { refine (bool_decide_unpack (NoDup (map fst textless_docs)) _).
    vm_compute. exact I. }
  assert (Hin : textless_pair ∈ Report.document_similarity (report_of textless_docs)).
  { apply list_elem_of_In. vm_compute. left. reflexivity. }
  assert (Hdis : doc_word_set ascii_tab (doc "a.json" "x y") ∩
                 doc_word_set ascii_tab (py "b.json", Object None) = ∅).
  { change (doc_word_set ascii_tab (py "b.json", Object None)) with (∅ : gset text).
    apply set_eq. intros x. rewrite elem_of_intersection. split; [tauto|].
    intros H. contradiction (not_elem_of_empty (C:=gset text) x). }
  split; [vm_compute; reflexivity|]. split; [exact Hnd|].
  split; [exact Hin|]. split; [exact Hdis|].
  apply (similarity_of_disjoint_and_equal ascii_tab now0 textless_docs
           (report_of textless_docs) (doc "a.json" "x y")
           (py "b.json", Object None) textless_pair);
    [vm_compute; reflexivity|exact Hnd| | |exact Hin|reflexivity|reflexivity
    |exact Hdis].
  - apply list_elem_of_In. left. reflexivity.
  - apply list_elem_of_In. right. left. reflexivity.
Defined.

Lemma main_outcome_witness :
  (Main.main ascii_tab (env_of scenario true true)).2 = Ok () ∧
  PrintedComplete ∈ (Main.main ascii_tab (env_of scenario true true)).1.
Proof.
  assert (Hok : (Main.main ascii_tab (env_of scenario true true)).2 = Ok ()).
  { vm_compute. reflexivity. }
  split; [exact Hok|].
  destruct (main_outcome ascii_tab (env_of scenario true true))
    as (_ & Hprinted & _).
  apply Hprinted. exact Hok.
Defined.

Lemma ngrams_injective_witness :
  Forall (λ t, SPACE ∉ t) abab ∧
  ngrams abab 2 !! 0 = ngrams abab 2 !! 2 ∧
  slice abab 0 (0 + 2) = slice abab 2 (2 + 2).
Proof.
  assert (Hall : Forall (λ t, SPACE ∉ t) abab).
  { refine (bool_decide_unpack _ _). vm_compute. exact I. }
  split; [exact Hall|]. split; [reflexivity|].
  apply (ngrams_injective abab 2 0 2 Hall); [simpl; lia|simpl; lia|reflexivity].
Defined.

(** ** The sorted listing *)

Section Listing.

Lemma lex_lt_irrefl (a : text) : lex_lt a a = false.
Proof.
  induction a as [|x a IH]; simpl; [done|].
  by rewrite N.ltb_irrefl, N.eqb_refl, IH.
Qed.

Lemma lex_lt_trans (a b c : text) :
  lex_lt a b = true → lex_lt b c = true → lex_lt a c = true.
Proof.
  revert b c. induction a as [|x a IH]; intros [|y b] [|z c]; simpl; try done.
  rewrite !orb_true_iff, !andb_true_iff, !N.ltb_lt, !N.eqb_eq.
  intros [Hxy|[-> Hab]] [Hyz|[-> Hbc]]; [left; lia|by left|by left|].
  right. split; [done|]. by apply (IH b).
Qed.

Lemma lex_lt_total (a b : text) :
  lex_lt a b = true ∨ a = b ∨ lex_lt b a = true.
Proof.
  revert b. induction a as [|x a IH]; intros [|y b]; simpl; auto.
  rewrite !orb_true_iff, !andb_true_iff, !N.ltb_lt, !N.eqb_eq.
  destruct (N.lt_trichotomy x y) as [?|[->|?]]; [by auto| |by auto].
  destruct (IH b) as [?|[->|?]]; auto.
Qed.

Lemma lex_lt_asym (a b : text) : lex_lt a b = true → lex_lt b a = false.
Proof.
  intros Hab. destruct (lex_lt b a) eqn:Hba; [|done].
  pose proof (lex_lt_trans _ _ _ Hab Hba) as H.
  by rewrite lex_lt_irrefl in H.
Qed.

Lemma lex_le_antisym (a b : text) : lex_le a b → lex_le b a → a = b.
Proof.
  unfold lex_le. intros Hab Hba.
  destruct (lex_lt_total a b) as [H|[H|H]]; [congruence|done|congruence].
Qed.

Lemma lex_le_trans (a b c : text) : lex_le a b → lex_le b c → lex_le a c.
Proof.
  unfold lex_le. intros Hab Hbc. destruct (lex_lt c a) eqn:Hca; [|done].
  destruct (lex_lt_total a b) as [H|[->|H]]; [|congruence|congruence].
  pose proof (lex_lt_trans _ _ _ Hca H). congruence.
Qed.

Lemma insert_sorted_perm (x : text) (l : list text) :
  insert_sorted x l ≡ₚ x :: l.
Proof.
  induction l as [|y l IH]; simpl; [done|].
  destruct (lex_lt y x); [|done]. rewrite IH. apply Permutation_swap.
Qed.

Lemma sorted_perm (l : list text) : sorted l ≡ₚ l.
Proof.
  induction l as [|x l IH]; [done|].
  unfold sorted in *. simpl. by rewrite insert_sorted_perm, IH.
Qed.

Lemma insert_sorted_ascending (x : text) (l : list text) :
  StronglySorted lex_le l → StronglySorted lex_le (insert_sorted x l).
Proof.
  induction 1 as [|y l Hl IH Hy]; simpl; [repeat constructor|].
  destruct (lex_lt y x) eqn:Hyx.
  - constructor; [done|]. rewrite insert_sorted_perm.
    constructor; [|done]. by apply lex_lt_asym.
  - constructor; [by constructor|]. constructor; [done|].
    eapply Forall_impl; [exact Hy|]. intros z Hz. by apply (lex_le_trans _ y).
Qed.

Lemma sorted_ascending (l : list text) : StronglySorted lex_le (sorted l).
Proof.
  induction l as [|x l IH]; [constructor|].
  unfold sorted in *. simpl. by apply insert_sorted_ascending.
Qed.

Lemma sorted_unique (l1 l2 : list text) : l1 ≡ₚ l2 → sorted l1 = sorted l2.
Proof.
  intros Hp. apply (StronglySorted_unique_strong lex_le).
  - intros a b _ _. apply lex_le_antisym.
  - apply sorted_ascending.
  - apply sorted_ascending.
  - by rewrite !sorted_perm.
Qed.

Variable U : chartab.

(** X18. The files a run ingests do not depend on the order in which the
    directory is enumerated: two enumerations of the same names give the
    same listing, in the same order. *)
Theorem json_files_order_independent (names names' : list text) :
  names ≡ₚ names' → json_files U names = json_files U names'.
Proof. intros Hp. unfold json_files. apply sorted_unique. by rewrite Hp. Qed.

(** X19. The listing holds exactly the names of the directory that end with
    ".json" once lower-cased, in ascending order; with distinct names in
    the directory the names of the listing are distinct and each holds
    what loading its file gives. *)
Theorem listing_of_directory (names : list text) (load : text → record) :
  StronglySorted lex_le (json_files U names) ∧
  (∀ fn, fn ∈ json_files U names ↔
         fn ∈ names ∧ endswith (str_lower U fn) (py ".json") = true) ∧
  map fst (listing_of U names load) = json_files U names ∧
  (∀ f, f ∈ listing_of U names load → f.2 = load f.1) ∧
  (NoDup names → NoDup (map fst (listing_of U names load))).
Proof.
  assert (Hfst : map fst (listing_of U names load) = json_files U names).
  { unfold listing_of. rewrite map_map. simpl. apply map_id. }
  split; [apply sorted_ascending|]. split; [|split; [done|split]].
  - intros fn. unfold json_files. rewrite sorted_perm, list_elem_of_filter.
    tauto.
  - unfold listing_of. by intros f (fn & -> & _)%list_elem_of_fmap.
  - intros Hnd. rewrite Hfst. unfold json_files. rewrite sorted_perm.
    by apply NoDup_filter.
Qed.

End Listing.

(** ** The first record that raises *)

Section FirstError.
Variable U : chartab.
Import Main.

Lemma error_of_loadable (r : record) : error_of r = None ↔ loadable r = true.
Proof. by destruct r as [| |[[?|]|]]. Qed.

Lemma ingest_one_error v f err :
  error_of f.2 = Some err → ingest_one U v f = Raise err.
Proof.
  destruct f as [fn [| |[[txt|]|]]]; simpl; unfold ingest_one; simpl;
    by intros [= <-].
Qed.

(** X20. A run of the analysis raises the exception of the first record of
    the listing that is not loadable, whatever follows it: a load error
    for an unreadable file or invalid JSON, an attribute error for a
    value that is not an object, a type error for a text that is not a
    string. *)
Theorem analyze_first_error
    (now : text) (pre post : list (text * record)) (f : text * record)
    (err : error) :
  forallb (λ f, loadable f.2) pre = true →
  error_of f.2 = Some err →
  analyze U now (pre ++ f :: post) = Raise err.
Proof.
  intros Hpre Herr. unfold analyze.
  assert (Hing : ∀ v, ingest U v (pre ++ f :: post) = Raise err).
  { induction pre as [|g pre IH]; intros v; simpl.
    - by rewrite (ingest_one_error v f err Herr).
    - simpl in Hpre. apply andb_prop in Hpre as [Hg Hpre].
      rewrite ingest_one_loadable by done. by apply IH. }
  by rewrite Hing.
Qed.

End FirstError.

Lemma json_files_order_independent_witness :
  [py "b.json"; py "notes.txt"; py "A.JSON"] ≡ₚ
    [py "A.JSON"; py "b.json"; py "notes.txt"] ∧
  json_files ascii_tab [py "b.json"; py "notes.txt"; py "A.JSON"] =
  json_files ascii_tab [py "A.JSON"; py "b.json"; py "notes.txt"].
Proof.
  assert (Hp : [py "b.json"; py "notes.txt"; py "A.JSON"] ≡ₚ
               [py "A.JSON"; py "b.json"; py "notes.txt"]).
  { change [py "b.json"; py "notes.txt"; py "A.JSON"]
      with ([py "b.json"; py "notes.txt"] ++ [py "A.JSON"]).
    by rewrite Permutation_app_comm. }
  split; [exact Hp|].
  apply (json_files_order_independent ascii_tab _ _ Hp).
Defined.

Lemma listing_of_directory_witness :
  NoDup [py "b.json"; py "notes.txt"; py "A.JSON"] ∧
  NoDup (map fst (listing_of ascii_tab
                    [py "b.json"; py "notes.txt"; py "A.JSON"]
                    (λ _, Object None))).
Proof.
  assert (Hnd : NoDup [py "b.json"; py "notes.txt"; py "A.JSON"]).
  { refine (bool_decide_unpack _ _). vm_compute. exact I. }
  split; [exact Hnd|].
  destruct (listing_of_directory ascii_tab
              [py "b.json"; py "notes.txt"; py "A.JSON"] (λ _, Object None))
    as (_ & _ & _ & _ & H).
  exact (H Hnd).
Defined.

Lemma analyze_first_error_witness :
  forallb (λ f, loadable f.2) [doc "a.json" "x y"] = true ∧
  error_of Unreadable = Some LoadError ∧
  Main.analyze ascii_tab now0
    ([doc "a.json" "x y"] ++ (py "b.json", Unreadable) :: [doc "c.json" "z"]) =
  Raise LoadError.
Proof.
  split; [reflexivity|]. split; [reflexivity|].
  apply (analyze_first_error ascii_tab now0 [doc "a.json" "x y"]
           [doc "c.json" "z"] (py "b.json", Unreadable) LoadError);
    reflexivity.
Defined.

Example json_files_example :
  json_files ascii_tab [py "b.json"; py "notes.txt"; py "A.JSON"; py "a.json"] =
  [py "A.JSON"; py "a.json"; py "b.json"].
Proof. vm_compute. reflexivity. Qed.
